(** * Story generator: extraction, API call, fallback policy and persistence

    A shallow embedding of [backend/core/story_generator.py] and the
    properties of its four class methods: [_extract_json],
    [_call_gemini_api], [generate_story] and [_process_story_node]. *)

From Stdlib Require Import List NArith ZArith Bool Ascii String Lia Arith
  Permutation DecimalString.
Import ListNotations.

Set Warnings "-register-all".

(** ** Python text

    A Python [str] is a sequence of Unicode code points.  A code point is a
    number; string literals of the source are written [py "..."]. *)

Definition char := N.
Definition str := list char.

Definition chr (a : ascii) : char := N_of_ascii a.

Definition py (s : string) : str := map chr (list_ascii_of_string s).

(** A literal of the source that holds double quotes, written with an
    apostrophe for each of them. *)
Definition pyq (s : string) : str :=
  map (fun c => if N.eqb c 39 then 34%N else c) (py s).

Definition LBRACE : char := 123%N.
Definition RBRACE : char := 125%N.
Definition LBRACKET : char := 91%N.
Definition RBRACKET : char := 93%N.
Definition QUOTE : char := 34%N.
Definition BACKSLASH : char := 92%N.
Definition COLON : char := 58%N.
Definition COMMA : char := 44%N.
Definition MINUS : char := 45%N.
Definition PLUS : char := 43%N.
Definition DOT : char := 46%N.

Definition str_eqb (a b : str) : bool :=
  if list_eq_dec N.eq_dec a b then true else false.

(** [s[a:b]] for [0 <= a <= b]. *)
Definition slice (s : str) (a b : nat) : str := firstn (b - a) (skipn a s).

(** [s.startswith(p)], returning what follows the prefix. *)
Fixpoint strip_prefix (p s : str) : option str :=
  match p, s with
  | [], _ => Some s
  | _ :: _, [] => None
  | a :: p', b :: s' => if N.eqb a b then strip_prefix p' s' else None
  end.

(** [p in s] for two strings: [p] occurs in [s]. *)
Fixpoint substring_in (p s : str) : bool :=
  match strip_prefix p s with
  | Some _ => true
  | None => match s with [] => false | _ :: s' => substring_in p s' end
  end.

(** [text.find(c)] for a single character; [None] stands for [-1]. *)
Fixpoint find (text : str) (c : char) : option nat :=
  match text with
  | [] => None
  | x :: rest => if N.eqb x c then Some O
                 else match find rest c with
                      | Some i => Some (S i)
                      | None => None
                      end
  end.

(** ** Exceptions

    The classes the handlers of the source tell apart, each with the text
    [str(e)] gives.  What [json.loads] raises (a [JSONDecodeError] for text
    that is not JSON, a [ValueError] for an integer of too many digits, a
    [RecursionError] for values nested too deep) is only ever printed by
    the source; the model leaves its text empty. *)

Inductive exn : Type :=
| RequestException (msg : str)
| JSONDecodeError
| ValueError
| RecursionError
| ValidationError (msg : str)
| KeyError (msg : str)
| IndexError (msg : str)
| TypeError (msg : str)
| AttributeError (msg : str)
| Exception (msg : str).

Definition str_exn (e : exn) : str :=
  match e with
  | JSONDecodeError | ValueError | RecursionError => []
  | RequestException m | ValidationError m | KeyError m | IndexError m
  | TypeError m | AttributeError m | Exception m => m
  end.

Definition is_RequestException (e : exn) : bool :=
  match e with RequestException _ => true | _ => false end.

Definition is_JSONDecodeError (e : exn) : bool :=
  match e with JSONDecodeError => true | _ => false end.

Inductive outcome (A : Type) : Type :=
| Ok (a : A)
| Raise (e : exn).

Arguments Ok {A} a.
Arguments Raise {A} e.

Definition bind {A B} (m : outcome A) (k : A -> outcome B) : outcome B :=
  match m with
  | Ok a => k a
  | Raise e => Raise e
  end.

(** [try: body  except Exception as e: handler e] *)
Definition try_except {A} (body : outcome A) (handler : exn -> outcome A)
  : outcome A :=
  match body with
  | Ok a => Ok a
  | Raise e => handler e
  end.

Declare Scope outcome_scope.
Delimit Scope outcome_scope with outcome.
Notation "x <- m ;; k" := (bind m (fun x => k))
  (at level 100, m at next level, right associativity) : outcome_scope.
Notation "'check' m ;; k" := (bind m (fun _ => k))
  (at level 100, m at next level, right associativity) : outcome_scope.
Open Scope outcome_scope.

(** ** JSON values, as [json.loads] and [response.json()] build them *)

Inductive json : Type :=
| JNull
| JBool (b : bool)
| JInt (n : Z)
| JFloat (lexeme : str)
| JStr (s : str)
| JArr (items : list json)
| JObj (pairs : list (str * json)).

(** A [dict] built from the pairs of an object: a later pair of the same key
    replaces an earlier one. *)
Fixpoint dict_get (pairs : list (str * json)) (k : str) : option json :=
  match pairs with
  | [] => None
  | (k', v) :: rest =>
      match dict_get rest k with
      | Some v' => Some v'
      | None => if str_eqb k' k then Some v else None
      end
  end.

Definition dict_has (pairs : list (str * json)) (k : str) : bool :=
  match dict_get pairs k with Some _ => true | None => false end.

Fixpoint dict_len (pairs : list (str * json)) : nat :=
  match pairs with
  | [] => O
  | (k, _) :: rest => if dict_has rest k then dict_len rest else S (dict_len rest)
  end.

(** ** The decoder of the [json] module

    [json.loads] on a [str], following [json.decoder] and [json.scanner]:
    [scanstring] (strict), [JSONObject], [JSONArray], the number pattern and
    the constants, each error raised where the decoder, reading from left
    to right, meets it.

    Two limits of the interpreter bear on it.  The conversion of an integer
    refuses more digits than [sys.get_int_max_str_digits()] (4300 unless
    configured; 0 for no limit; only texts of more than 640 digits are
    checked) with a [ValueError].  Every object and array the decoder
    enters takes one level of the recursion the interpreter still allows
    where [json.loads] is called; with none left, a [RecursionError] is
    raised.

    Fuel makes the recursion structural; [json_loads] gives as much as a
    text of its length can use ([decoder_fuel] below: more fuel changes
    nothing). *)

Record Limits : Type := {
  (** [sys.get_int_max_str_digits()] *)
  int_max_str_digits : nat;
  (** how many objects and arrays, one inside the other, the decoder may
      enter *)
  max_depth : nat
}.

Definition is_ws (c : char) : bool :=
  N.eqb c 32 || N.eqb c 9 || N.eqb c 10 || N.eqb c 13.

Fixpoint skip_ws (s : str) : str :=
  match s with
  | c :: rest => if is_ws c then skip_ws rest else s
  | [] => []
  end.

Definition is_digit (c : char) : bool := N.leb 48 c && N.leb c 57.

Definition hex_digit (c : char) : option N :=
  if N.leb 48 c && N.leb c 57 then Some (c - 48)%N
  else if N.leb 97 c && N.leb c 102 then Some (c - 87)%N
  else if N.leb 65 c && N.leb c 70 then Some (c - 55)%N
  else None.

Definition hex4 (h1 h2 h3 h4 : char) : option N :=
  match hex_digit h1, hex_digit h2, hex_digit h3, hex_digit h4 with
  | Some a, Some b, Some c, Some d => Some (((a * 16 + b) * 16 + c) * 16 + d)%N
  | _, _, _, _ => None
  end.

(** The characters a backslash may introduce, other than [u]. *)
Definition BACKSLASH_table (esc : char) : option char :=
  if N.eqb esc QUOTE then Some QUOTE
  else if N.eqb esc BACKSLASH then Some BACKSLASH
  else if N.eqb esc (chr "/") then Some (chr "/")
  else if N.eqb esc (chr "b") then Some 8%N
  else if N.eqb esc (chr "f") then Some 12%N
  else if N.eqb esc (chr "n") then Some 10%N
  else if N.eqb esc (chr "r") then Some 13%N
  else if N.eqb esc (chr "t") then Some 9%N
  else None.

Definition is_high_surrogate (u : N) : bool := N.leb 55296 u && N.leb u 56319.
Definition is_low_surrogate (u : N) : bool := N.leb 56320 u && N.leb u 57343.

Definition join_surrogates (u u2 : N) : N :=
  (65536 + (((u - 55296) * 1024) + (u2 - 56320)))%N.

(** [scanstring(s, end, strict=True)], from the character after the opening
    quote: the decoded string and what follows the closing quote. *)
Fixpoint scanstring (s : str) : option (str * str) :=
  match s with
  | [] => None
  | c :: rest =>
      if N.eqb c QUOTE then Some ([], rest)
      else if N.eqb c BACKSLASH then
        match rest with
        | [] => None
        | esc :: rest1 =>
            if N.eqb esc (chr "u") then
              match rest1 with
              | h1 :: h2 :: h3 :: h4 :: rest2 =>
                  match hex4 h1 h2 h3 h4 with
                  | None => None
                  | Some uni =>
                      match rest2 with
                      | b :: u :: g1 :: g2 :: g3 :: g4 :: rest3 =>
                          if is_high_surrogate uni
                             && N.eqb b BACKSLASH && N.eqb u (chr "u")
                             && match hex4 g1 g2 g3 g4 with
                                | Some u2 => is_low_surrogate u2
                                | None => false
                                end
                          then
                            match hex4 g1 g2 g3 g4, scanstring rest3 with
                            | Some u2, Some (v, r) =>
                                Some (join_surrogates uni u2 :: v, r)
                            | _, _ => None
                            end
                          else
                            match scanstring rest2 with
                            | Some (v, r) => Some (uni :: v, r)
                            | None => None
                            end
                      | _ =>
                          match scanstring rest2 with
                          | Some (v, r) => Some (uni :: v, r)
                          | None => None
                          end
                      end
                  end
              | _ => None
              end
            else
              match BACKSLASH_table esc, scanstring rest1 with
              | Some d, Some (v, r) => Some (d :: v, r)
              | _, _ => None
              end
        end
      else if N.ltb c 32 then None
      else
        match scanstring rest with
        | Some (v, r) => Some (c :: v, r)
        | None => None
        end
  end.

(** The number pattern of [json.scanner], one group at a time (an integer
    part with an optional sign and no leading zero, an optional fraction, an
    optional exponent): the text matched and what follows it. *)
Fixpoint span_digits (s : str) : str * str :=
  match s with
  | c :: rest =>
      if is_digit c then let (ds, r) := span_digits rest in (c :: ds, r)
      else ([], s)
  | [] => ([], [])
  end.

Definition match_integer (s : str) : option (str * str) :=
  let (sign, s1) :=
    match s with
    | c :: r => if N.eqb c MINUS then ([MINUS], r) else ([], s)
    | [] => ([], s)
    end in
  match s1 with
  | d :: r =>
      if N.eqb d 48 then Some (sign ++ [d], r)
      else if is_digit d then
        let (ds, r') := span_digits r in Some (sign ++ d :: ds, r')
      else None
  | [] => None
  end.

Definition match_frac (s : str) : option (str * str) :=
  match s with
  | c :: d :: r =>
      if N.eqb c DOT && is_digit d then
        let (ds, r') := span_digits r in Some (c :: d :: ds, r')
      else None
  | _ => None
  end.

Definition match_exp (s : str) : option (str * str) :=
  match s with
  | e :: sg :: r =>
      if N.eqb e (chr "e") || N.eqb e (chr "E") then
        if is_digit sg then
          let (ds, r') := span_digits r in Some (e :: sg :: ds, r')
        else if N.eqb sg MINUS || N.eqb sg PLUS then
          match r with
          | d :: r2 =>
              if is_digit d then
                let (ds, r') := span_digits r2 in Some (e :: sg :: d :: ds, r')
              else None
          | [] => None
          end
        else None
      else None
  | _ => None
  end.

(** [int(lexeme)] for an optional sign and decimal digits. *)
Definition int_of_digits (ds : str) : Z :=
  fold_left (fun acc d => (acc * 10 + Z.of_N (d - 48))%Z) ds 0%Z.

Definition int_of_lexeme (l : str) : Z :=
  match l with
  | c :: ds => if N.eqb c MINUS then (- int_of_digits ds)%Z else int_of_digits l
  | [] => 0%Z
  end.

(** [int(lexeme)] refuses the lexeme: it has more digits than the limit
    allows. *)
Definition int_too_long (L : Limits) (integer : str) : bool :=
  let digits := List.length (filter is_digit integer) in
  Nat.ltb 640 digits
  && negb (Nat.eqb (int_max_str_digits L) 0)
  && Nat.ltb (int_max_str_digits L) digits.

(** The number at the head of the text, if the pattern matches: its value,
    or the error of the conversion.  A float is kept as the text it was
    read from. *)
Definition match_number (L : Limits) (s : str)
  : option (outcome (json * str)) :=
  match match_integer s with
  | None => None
  | Some (integer, r) =>
      let (frac, r1) :=
        match match_frac r with Some (f, r') => (f, r') | None => ([], r) end in
      let (exp, r2) :=
        match match_exp r1 with Some (e, r') => (e, r') | None => ([], r1) end in
      match frac, exp with
      | [], [] =>
          if int_too_long L integer then Some (Raise ValueError)
          else Some (Ok (JInt (int_of_lexeme integer), r2))
      | _, _ => Some (Ok (JFloat (integer ++ frac ++ exp), r2))
      end
  end.

Definition match_constant (s : str) : option (json * str) :=
  match strip_prefix (py "NaN") s with
  | Some r => Some (JFloat (py "NaN"), r)
  | None =>
  match strip_prefix (py "Infinity") s with
  | Some r => Some (JFloat (py "Infinity"), r)
  | None =>
  match strip_prefix (py "-Infinity") s with
  | Some r => Some (JFloat (py "-Infinity"), r)
  | None => None
  end end end.

(** [scan_once], with [JSONObject] and [JSONArray]: [object_members] starts
    after the opening quote of a key and runs the [while True] loop of
    [JSONObject]; [array_items] starts at a value and runs the loop of
    [JSONArray].  [depth] is the number of objects and arrays that may
    still be entered. *)
Fixpoint scan_once (L : Limits) (fuel depth : nat) (s : str) {struct fuel}
  : outcome (json * str) :=
  match fuel with
  | O => Raise JSONDecodeError
  | S fuel' =>
      match s with
      | [] => Raise JSONDecodeError
      | nextchar :: rest =>
          if N.eqb nextchar QUOTE then
            match scanstring rest with
            | Some (v, r) => Ok (JStr v, r)
            | None => Raise JSONDecodeError
            end
          else if N.eqb nextchar LBRACE then
            match depth with
            | O => Raise RecursionError
            | S depth' =>
                match skip_ws rest with
                | c :: r1 =>
                    if N.eqb c RBRACE then Ok (JObj [], r1)
                    else if N.eqb c QUOTE then
                      match object_members L fuel' depth' r1 with
                      | Ok (pairs, r) => Ok (JObj pairs, r)
                      | Raise e => Raise e
                      end
                    else Raise JSONDecodeError
                | [] => Raise JSONDecodeError
                end
            end
          else if N.eqb nextchar LBRACKET then
            match depth with
            | O => Raise RecursionError
            | S depth' =>
                match skip_ws rest with
                | c :: r1 =>
                    if N.eqb c RBRACKET then Ok (JArr [], r1)
                    else
                      match array_items L fuel' depth' (c :: r1) with
                      | Ok (values, r) => Ok (JArr values, r)
                      | Raise e => Raise e
                      end
                | [] => Raise JSONDecodeError
                end
            end
          else
            match strip_prefix (py "null") s with
            | Some r => Ok (JNull, r)
            | None =>
            match strip_prefix (py "true") s with
            | Some r => Ok (JBool true, r)
            | None =>
            match strip_prefix (py "false") s with
            | Some r => Ok (JBool false, r)
            | None =>
            match match_number L s with
            | Some x => x
            | None =>
            match match_constant s with
            | Some x => Ok x
            | None => Raise JSONDecodeError
            end end end end end
      end
  end
with object_members (L : Limits) (fuel depth : nat) (s : str) {struct fuel}
  : outcome (list (str * json) * str) :=
  match fuel with
  | O => Raise JSONDecodeError
  | S fuel' =>
      match scanstring s with
      | None => Raise JSONDecodeError
      | Some (key, r) =>
          match skip_ws r with
          | colon :: r2 =>
              if N.eqb colon COLON then
                match scan_once L fuel' depth (skip_ws r2) with
                | Raise e => Raise e
                | Ok (value, r4) =>
                    match skip_ws r4 with
                    | c :: r6 =>
                        if N.eqb c RBRACE then Ok ([(key, value)], r6)
                        else if N.eqb c COMMA then
                          match skip_ws r6 with
                          | q :: r8 =>
                              if N.eqb q QUOTE then
                                match object_members L fuel' depth r8 with
                                | Ok (pairs, r9) =>
                                    Ok ((key, value) :: pairs, r9)
                                | Raise e => Raise e
                                end
                              else Raise JSONDecodeError
                          | [] => Raise JSONDecodeError
                          end
                        else Raise JSONDecodeError
                    | [] => Raise JSONDecodeError
                    end
                end
              else Raise JSONDecodeError
          | [] => Raise JSONDecodeError
          end
      end
  end
with array_items (L : Limits) (fuel depth : nat) (s : str) {struct fuel}
  : outcome (list json * str) :=
  match fuel with
  | O => Raise JSONDecodeError
  | S fuel' =>
      match scan_once L fuel' depth s with
      | Raise e => Raise e
      | Ok (value, r) =>
          match skip_ws r with
          | c :: r2 =>
              if N.eqb c RBRACKET then Ok ([value], r2)
              else if N.eqb c COMMA then
                match array_items L fuel' depth (skip_ws r2) with
                | Ok (values, r4) => Ok (value :: values, r4)
                | Raise e => Raise e
                end
              else Raise JSONDecodeError
          | [] => Raise JSONDecodeError
          end
      end
  end.

(** [json.loads(s)] for a [str], under the limits in force where it is
    called: a byte-order mark is refused, white space around the one value
    is skipped, anything after it is [Extra data]. *)
Definition json_loads (L : Limits) (s : str) : outcome json :=
  match s with
  | 65279%N :: _ => Raise JSONDecodeError
  | _ =>
      match scan_once L (S (2 * List.length s)) (max_depth L) (skip_ws s) with
      | Raise e => Raise e
      | Ok (obj, rest) =>
          match skip_ws rest with
          | [] => Ok obj
          | _ :: _ => Raise JSONDecodeError
          end
      end
  end.

(** ** [StoryGenerator._extract_json] *)

(** The [for i in range(start_idx, len(text))] loop, on the characters from
    [start_idx] on: the index at which it reaches [json.loads], if it does. *)
Fixpoint scan_braces (chars : str) (i start_idx : nat) (depth : Z)
    (in_string escape_next : bool) : option nat :=
  match chars with
  | [] => None
  | char :: rest =>
      if N.eqb char BACKSLASH && negb escape_next then
        scan_braces rest (S i) start_idx depth in_string true
      else
        let in_string :=
          if N.eqb char QUOTE && negb escape_next then negb in_string
          else in_string in
        if negb in_string then
          let depth :=
            if N.eqb char LBRACE then (depth + 1)%Z
            else if N.eqb char RBRACE then (depth - 1)%Z
            else depth in
          if Z.eqb depth 0 && Nat.ltb start_idx i then Some i
          else scan_braces rest (S i) start_idx depth in_string false
        else scan_braces rest (S i) start_idx depth in_string false
  end.

(** The loop as [_extract_json] starts it. *)
Definition matching_brace (text : str) (start_idx : nat) : option nat :=
  scan_braces (skipn start_idx text) start_idx start_idx 0 false false.

(** [json.loads] is called under the limits [L] of the interpreter. *)
Definition _extract_json (L : Limits) (text : str) : outcome str :=
  try_except
    (match find text LBRACE with
     | None => Ok text
     | Some start_idx =>
         match matching_brace text start_idx with
         | Some i =>
             let json_str := slice text start_idx (i + 1) in
             check json_loads L json_str ;;
             Ok json_str
         | None => Ok text
         end
     end)
    (fun e => Ok text).

(** ** The operations of the interpreter on a decoded payload

    [response.json()] gives any JSON value; [in], [len], subscripting and
    [.get] act on it by its type.  The texts of the errors are those of
    CPython 3.11. *)

Definition type_name (v : json) : str :=
  match v with
  | JNull => py "NoneType"
  | JBool _ => py "bool"
  | JInt _ => py "int"
  | JFloat _ => py "float"
  | JStr _ => py "str"
  | JArr _ => py "list"
  | JObj _ => py "dict"
  end.

(** [k in v] *)
Definition py_in (k : str) (v : json) : outcome bool :=
  match v with
  | JObj pairs => Ok (dict_has pairs k)
  | JArr items =>
      Ok (existsb (fun x => match x with JStr s => str_eqb s k | _ => false end)
                  items)
  | JStr s => Ok (substring_in k s)
  | _ => Raise (TypeError (py "argument of type '" ++ type_name v
                           ++ py "' is not iterable"))
  end.

(** [len(v)] *)
Definition py_len (v : json) : outcome nat :=
  match v with
  | JObj pairs => Ok (dict_len pairs)
  | JArr items => Ok (List.length items)
  | JStr s => Ok (List.length s)
  | _ => Raise (TypeError (py "object of type '" ++ type_name v
                           ++ py "' has no len()"))
  end.

(** [v[0]] *)
Definition py_first (v : json) : outcome json :=
  match v with
  | JArr (x :: _) => Ok x
  | JArr [] => Raise (IndexError (py "list index out of range"))
  | JStr (c :: _) => Ok (JStr [c])
  | JStr [] => Raise (IndexError (py "string index out of range"))
  | JObj _ => Raise (KeyError (py "0"))
  | _ => Raise (TypeError (py "'" ++ type_name v
                           ++ py "' object is not subscriptable"))
  end.

(** [v[k]] for a string key *)
Definition py_getitem (v : json) (k : str) : outcome json :=
  match v with
  | JObj pairs =>
      match dict_get pairs k with
      | Some x => Ok x
      | None => Raise (KeyError (py "'" ++ k ++ py "'"))
      end
  | JArr _ => Raise (TypeError (py "list indices must be integers or slices, not str"))
  | JStr _ => Raise (TypeError (py "string indices must be integers, not 'str'"))
  | _ => Raise (TypeError (py "'" ++ type_name v
                           ++ py "' object is not subscriptable"))
  end.

(** [v.get(k, default)] *)
Definition py_get (v : json) (k : str) (default : json) : outcome json :=
  match v with
  | JObj pairs =>
      match dict_get pairs k with
      | Some x => Ok x
      | None => Ok default
      end
  | _ => Raise (AttributeError (py "'" ++ type_name v
                                ++ py "' object has no attribute 'get'"))
  end.

(** ** The description of a story, as decoded from the model's answer *)

Module LLM.

(** Modelled from the spec: [core/models.py] ([StoryLLMResponse],
    [StoryNodeLLM] and the option model) is not among the sources.  The
    data model of the specification gives a description a title and a root
    node; a node a content, two flags and an ordered sequence of options,
    possibly empty; an option a text and the node it leads to. *)
Inductive StoryNodeLLM : Type :=
| Node (content : str) (isEnding isWinningEnding : bool)
       (options : list StoryOptionLLM)
with StoryOptionLLM : Type :=
| Option (text : str) (nextNode : StoryNodeLLM).

Definition content (n : StoryNodeLLM) : str :=
  match n with Node c _ _ _ => c end.
Definition isEnding (n : StoryNodeLLM) : bool :=
  match n with Node _ e _ _ => e end.
Definition isWinningEnding (n : StoryNodeLLM) : bool :=
  match n with Node _ _ w _ => w end.
Definition options (n : StoryNodeLLM) : list StoryOptionLLM :=
  match n with Node _ _ _ o => o end.
Definition text (o : StoryOptionLLM) : str :=
  match o with Option t _ => t end.
Definition nextNode (o : StoryOptionLLM) : StoryNodeLLM :=
  match o with Option _ n => n end.

Record StoryLLMResponse : Type := {
  title : str;
  rootNode : StoryNodeLLM
}.

End LLM.

(** ** The persisted rows and the session *)

Module Story.
Record t : Type := {
  id : nat;
  title : str;
  session_id : str
}.
End Story.

Module StoryNode.
(** One entry of the [options] column: [{"text": ..., "node_id": ...}]. *)
Record option_row : Type := {
  text : str;
  node_id : nat
}.

Record t : Type := {
  id : nat;
  story_id : nat;
  content : str;
  is_root : bool;
  is_ending : bool;
  is_winning_ending : bool;
  options : list option_row
}.

Definition set_id (n : t) (i : nat) : t :=
  {| id := i; story_id := story_id n; content := content n;
     is_root := is_root n; is_ending := is_ending n;
     is_winning_ending := is_winning_ending n; options := options n |}.

Definition set_options (n : t) (o : list option_row) : t :=
  {| id := id n; story_id := story_id n; content := content n;
     is_root := is_root n; is_ending := is_ending n;
     is_winning_ending := is_winning_ending n; options := o |}.
End StoryNode.

(** The two tables.  A session holds what its transaction has flushed
    ([pending]) and what has been committed ([durable]). *)
Record Database : Type := {
  stories : list Story.t;
  story_nodes : list StoryNode.t
}.

Record Session : Type := {
  pending : Database;
  durable : Database
}.

(** The database gives a flushed row an id no row of its table has. *)
Definition fresh_id (ids : list nat) : nat := S (list_max ids).

(** [db.add(story); db.flush()]: the row with its generated id. *)
Definition add_story (db : Session) (title session_id : str)
  : Session * Story.t :=
  let story :=
    {| Story.id := fresh_id (map Story.id (stories (pending db)));
       Story.title := title; Story.session_id := session_id |} in
  ({| pending := {| stories := stories (pending db) ++ [story];
                    story_nodes := story_nodes (pending db) |};
      durable := durable db |}, story).

(** [db.add(node); db.flush()] *)
Definition add_node (db : Session) (node : StoryNode.t)
  : Session * StoryNode.t :=
  let node :=
    StoryNode.set_id node
      (fresh_id (map StoryNode.id (story_nodes (pending db)))) in
  ({| pending := {| stories := stories (pending db);
                    story_nodes := story_nodes (pending db) ++ [node] |};
      durable := durable db |}, node).

(** [db.flush()] after an attribute of [node], a row of the session, was
    assigned: the row of that id is rewritten. *)
Definition flush_node (db : Session) (node : StoryNode.t) : Session :=
  {| pending :=
       {| stories := stories (pending db);
          story_nodes :=
            map (fun r => if Nat.eqb (StoryNode.id r) (StoryNode.id node)
                          then node else r)
                (story_nodes (pending db)) |};
     durable := durable db |}.

(** [db.commit()] *)
Definition commit (db : Session) : Session :=
  {| pending := pending db; durable := pending db |}.

(** ** What the module takes from its surroundings

    The configuration, the prompt template, the HTTP exchange, the
    validation library and the pieces of the interpreter that the model does
    not spell out. *)
Record Runtime : Type := {
  (** [settings.GOOGLE_API_KEY] *)
  GOOGLE_API_KEY : str;
  (** [core.prompts.STORY_PROMPT] *)
  STORY_PROMPT : str;
  (** [requests.post(url, json=payload, timeout=...)], then
      [raise_for_status()] and [response.json()]: the decoded body of a 2xx
      answer, or what was raised on the way. *)
  requests_post : str -> json -> nat -> outcome json;
  (** [StoryLLMResponse.model_validate]: a validated description, or the
      error of the validation library. *)
  model_validate : json -> outcome LLM.StoryLLMResponse;
  (** [str.capitalize] *)
  capitalize : str -> str;
  (** [str(v)] for a value that is not a string, inside an f-string. *)
  format_value : json -> str;
  (** What is raised in [generate_story] when the value returned by the
      API call is not a string: [len], [json.loads], slicing or the
      construction of the fallback node refuses it, with an error of class
      [Exception]. *)
  non_str_response : json -> exn;
  (** The limits of the interpreter where [_call_gemini_api] calls
      [_extract_json]. *)
  extract_limits : Limits;
  (** The limits of the interpreter where [generate_story] calls
      [json.loads]. *)
  story_limits : Limits
}.

(** ** [StoryGenerator._call_gemini_api] *)

Definition model : str := py "gemini-1.5-flash".

Definition url (R : Runtime) : str :=
  py "https://generativelanguage.googleapis.com/v1beta/models/" ++ model
  ++ py ":generateContent?key=" ++ GOOGLE_API_KEY R.

Definition payload (prompt : str) : json :=
  JObj [ (py "contents",
          JArr [ JObj [ (py "role", JStr (py "user"));
                        (py "parts", JArr [ JObj [ (py "text", JStr prompt) ] ]) ] ]);
         (py "generationConfig",
          JObj [ (py "temperature", JFloat (py "0.7"));
                 (py "topK", JInt 40);
                 (py "topP", JFloat (py "0.95"));
                 (py "maxOutputTokens", JInt 8192) ]) ].

(** [cls._extract_json(text)] on whatever the payload holds under [text]:
    a value that is not a string has no [find]; the handler of
    [_extract_json] returns it as it is. *)
Definition _extract_json_value (L : Limits) (text : json) : outcome json :=
  match text with
  | JStr s => extracted <- _extract_json L s ;; Ok (JStr extracted)
  | _ => Ok text
  end.

(** [f"{v}"] *)
Definition format (R : Runtime) (v : json) : str :=
  match v with
  | JStr s => s
  | _ => format_value R v
  end.

(** The statements after the test for candidates: the error object, or the
    text returned when there is none. *)
Definition without_candidate (R : Runtime) (response_json : json)
  : outcome json :=
  has_error <- py_in (py "error") response_json ;;
  if has_error : bool then
    error <- py_getitem response_json (py "error") ;;
    error_msg <- py_get error (py "message") (JStr (py "Unknown API error")) ;;
    Raise (Exception (py "Gemini API error: " ++ format R error_msg))
  else
    Ok (JStr (py "No valid response from Gemini API")).

(** [k in v and len(v[k]) > 0] *)
Definition has_nonempty (k : str) (v : json) : outcome bool :=
  present <- py_in k v ;;
  if present : bool then
    x <- py_getitem v k ;;
    n <- py_len x ;;
    Ok (Nat.ltb 0 n)
  else Ok false.

(** The statements from [response_json = response.json()] to the end of the
    [try] block. *)
Definition read_response (R : Runtime) (response_json : json) : outcome json :=
  has_candidates <- has_nonempty (py "candidates") response_json ;;
  if has_candidates : bool then
    candidates <- py_getitem response_json (py "candidates") ;;
    candidate <- py_first candidates ;;
    content <- py_getitem candidate (py "content") ;;
    has_parts <- has_nonempty (py "parts") content ;;
    if has_parts : bool then
      parts <- py_getitem content (py "parts") ;;
      part <- py_first parts ;;
      text <- py_getitem part (py "text") ;;
      _extract_json_value (extract_limits R) text
    else without_candidate R response_json
  else without_candidate R response_json.

Definition _call_gemini_api (R : Runtime) (prompt : str) : outcome json :=
  try_except
    (response_json <- requests_post R (url R) (payload prompt) 60 ;;
     read_response R response_json)
    (fun e =>
       if is_RequestException e then
         Raise (Exception (py "Network error when calling Gemini API: "
                           ++ str_exn e))
       else
         Raise (Exception (py "Error calling Gemini API: " ++ str_exn e))).

(** ** [StoryGenerator._process_story_node] *)

(** The [for option_data in node_data.options] loop: [persist] is the
    recursive call, [options_list] the list built so far. *)
Fixpoint each_option (persist : Session -> LLM.StoryNodeLLM -> Session * StoryNode.t)
    (db : Session) (options : list LLM.StoryOptionLLM)
    (options_list : list StoryNode.option_row)
  : Session * list StoryNode.option_row :=
  match options with
  | [] => (db, options_list)
  | option_data :: rest =>
      let next_node := LLM.nextNode option_data in
      let (db, child_node) := persist db next_node in
      each_option persist db rest
        (options_list ++ [ {| StoryNode.text := LLM.text option_data;
                              StoryNode.node_id := StoryNode.id child_node |} ])
  end.

(** A description is a typed tree: the [hasattr] tests of the source hold
    and its [isinstance(..., dict)] tests fail, so the attribute is read and
    no node is validated again. *)
Fixpoint _process_story_node (db : Session) (story_id : nat)
    (node_data : LLM.StoryNodeLLM) (is_root : bool) {struct node_data}
  : Session * StoryNode.t :=
  match node_data with
  | LLM.Node content isEnding isWinningEnding options =>
      (* the id is generated by [add_node] *)
      let (db, node) :=
        add_node db
          {| StoryNode.id := 0; StoryNode.story_id := story_id;
             StoryNode.content := content; StoryNode.is_root := is_root;
             StoryNode.is_ending := isEnding;
             StoryNode.is_winning_ending := isWinningEnding;
             StoryNode.options := [] |} in
      if negb (StoryNode.is_ending node)
         && match options with [] => false | _ :: _ => true end
      then
        let (db, options_list) :=
          each_option
            (fun db next_node => _process_story_node db story_id next_node false)
            db options [] in
        let node := StoryNode.set_options node options_list in
        (flush_node db node, node)
      else (db, node)
  end.

(** ** [StoryGenerator.generate_story] *)

Definition NL : str := [10%N].

Definition lines (l : list str) : str :=
  match l with
  | [] => []
  | x :: rest => x ++ List.concat (map (fun y => NL ++ y) rest)
  end.

Definition full_prompt (R : Runtime) (theme : str) : str :=
  STORY_PROMPT R ++ NL ++ NL
  ++ py "Create the story with this theme: " ++ theme ++ NL ++ NL
  ++ lines
       [ py "Please format your response as a JSON object with the following structure:";
         py "{";
         pyq "  'title': 'Story Title',";
         pyq "  'rootNode': {";
         pyq "    'content': 'Node content text',";
         pyq "    'isEnding': false,";
         pyq "    'isWinningEnding': false,";
         pyq "    'options': [{";
         pyq "      'text': 'Option text',";
         pyq "      'nextNode': {";
         pyq "        'content': 'Next node content',";
         pyq "        'isEnding': false,";
         pyq "        'isWinningEnding': false,";
         pyq "        'options': []";
         py "      }";
         py "    }]";
         py "  }";
         py "}" ].

(** The description both handlers of the inner [try] build. *)
Definition text_fallback (R : Runtime) (theme response_text : str)
  : LLM.StoryLLMResponse :=
  {| LLM.title := capitalize R theme ++ py " Story";
     LLM.rootNode := LLM.Node (firstn 500 response_text) true true [] |}.

(** The description the outer handler builds. *)
Definition error_fallback (R : Runtime) (theme : str) (e : exn)
  : LLM.StoryLLMResponse :=
  {| LLM.title := py "Error: " ++ capitalize R theme ++ py " Story";
     LLM.rootNode :=
       LLM.Node (py "We encountered an error while generating your story: "
                 ++ str_exn e)
                true false [] |}.

(** The two [try] blocks: the description the story is built from. *)
Definition story_structure (R : Runtime) (theme : str) : LLM.StoryLLMResponse :=
  match
    try_except
      (response <- _call_gemini_api R (full_prompt R theme) ;;
       match response with
       | JStr response_text =>
           match
             (json_data <- json_loads (story_limits R) response_text ;;
              model_validate R json_data)
           with
           | Ok validated => Ok validated
           | Raise e =>
               if is_JSONDecodeError e
               then Ok (text_fallback R theme response_text)
               else Ok (text_fallback R theme response_text)
           end
       | _ => Raise (non_str_response R response)
       end)
      (fun e => Ok (error_fallback R theme e))
  with
  | Ok s => s
  | Raise e => error_fallback R theme e
  end.

Definition generate_story (R : Runtime) (db : Session) (session_id theme : str)
  : Session * Story.t :=
  let story_structure := story_structure R theme in
  let (db, story_db) := add_story db (LLM.title story_structure) session_id in
  let root_node_data := LLM.rootNode story_structure in
  let (db, _) := _process_story_node db (Story.id story_db) root_node_data true in
  (commit db, story_db).

(** ** Shapes of text the brace scan is indifferent to *)

(** A character that is neither a brace, a quote nor a backslash. *)
Definition is_plain (c : char) : bool :=
  negb (N.eqb c LBRACE) && negb (N.eqb c RBRACE)
  && negb (N.eqb c QUOTE) && negb (N.eqb c BACKSLASH).

(** What stands between the quotes of a string literal: characters other
    than the quote and the backslash, and backslashes each followed by one
    character. *)
Inductive StringBody : str -> Prop :=
| SB_nil : StringBody []
| SB_char c b :
    N.eqb c QUOTE = false -> N.eqb c BACKSLASH = false ->
    StringBody b -> StringBody (c :: b)
| SB_escape x b : StringBody b -> StringBody (BACKSLASH :: x :: b).

(** Text whose braces, outside string literals, are matched. *)
Inductive Neutral : str -> Prop :=
| N_nil : Neutral []
| N_plain c t : is_plain c = true -> Neutral t -> Neutral (c :: t)
| N_string b t :
    StringBody b -> Neutral t -> Neutral (QUOTE :: b ++ QUOTE :: t)
| N_braces u t :
    Neutral u -> Neutral t -> Neutral (LBRACE :: u ++ RBRACE :: t).

(** The text of one JSON object, from its opening to its closing brace,
    that [json.loads] accepts under the limits [L]. *)
Definition is_json_object (L : Limits) (obj : str) : bool :=
  match obj with
  | c :: _ =>
      N.eqb c LBRACE && N.eqb (last obj 0%N) RBRACE
      && match json_loads L obj with
         | Ok (JObj _) => true
         | _ => false
         end
  | [] => false
  end.

Definition Plain (l : str) : Prop := Forall (fun c => is_plain c = true) l.

(** The payload has no first candidate with a first part: the two tests of
    [_call_gemini_api] for it are evaluated without an error as far as the
    code goes, and one of them fails: [candidates] is missing or empty, or
    the [content] of the first candidate, which is there, has [parts]
    missing or empty. *)
Definition no_usable_candidate (response_json : json) : bool :=
  match has_nonempty (py "candidates") response_json with
  | Ok false => true
  | Ok true =>
      match
        (candidates <- py_getitem response_json (py "candidates") ;;
         candidate <- py_first candidates ;;
         content <- py_getitem candidate (py "content") ;;
         has_nonempty (py "parts") content)
      with
      | Ok false => true
      | _ => false
      end
  | Raise _ => false
  end.

(** ** [_process_story_node]: the rows one call writes *)

(** The rows that persisting the children of a node adds, the first at id
    [next], and the option list of the parent. *)
Fixpoint children_rows (rows_of : LLM.StoryNodeLLM -> nat -> list StoryNode.t)
    (options : list LLM.StoryOptionLLM) (next : nat)
  : list StoryNode.t * list StoryNode.option_row :=
  match options with
  | [] => ([], [])
  | option_data :: rest =>
      let rows1 := rows_of (LLM.nextNode option_data) next in
      let (rows2, options_list) :=
        children_rows rows_of rest (next + List.length rows1) in
      (rows1 ++ rows2,
       {| StoryNode.text := LLM.text option_data; StoryNode.node_id := next |}
         :: options_list)
  end.

(** The rows that persisting a description adds, in the order they are
    flushed, the first at id [next]. *)
Fixpoint rows_from (story_id : nat) (node_data : LLM.StoryNodeLLM)
    (is_root : bool) (next : nat) {struct node_data} : list StoryNode.t :=
  match node_data with
  | LLM.Node content isEnding isWinningEnding options =>
      let row options_list :=
        {| StoryNode.id := next; StoryNode.story_id := story_id;
           StoryNode.content := content; StoryNode.is_root := is_root;
           StoryNode.is_ending := isEnding;
           StoryNode.is_winning_ending := isWinningEnding;
           StoryNode.options := options_list |} in
      if negb isEnding && match options with [] => false | _ :: _ => true end
      then
        let (rows, options_list) :=
          children_rows (fun n i => rows_from story_id n false i)
                        options (S next) in
        row options_list :: rows
      else [row []]
  end.

Definition add_rows (db : Session) (rows : list StoryNode.t) : Session :=
  {| pending := {| stories := stories (pending db);
                   story_nodes := story_nodes (pending db) ++ rows |};
     durable := durable db |}.

Definition next_node_id (db : Session) : nat :=
  fresh_id (map StoryNode.id (story_nodes (pending db))).

(** Induction on a description, with the hypothesis for the node of every
    option. *)
Fixpoint StoryNodeLLM_induction (P : LLM.StoryNodeLLM -> Prop)
    (step : forall c e w options,
        Forall (fun o => P (LLM.nextNode o)) options ->
        P (LLM.Node c e w options))
    (n : LLM.StoryNodeLLM) {struct n} : P n :=
  match n with
  | LLM.Node c e w options =>
      step c e w options
        ((fix each (l : list LLM.StoryOptionLLM)
           : Forall (fun o => P (LLM.nextNode o)) l :=
            match l with
            | [] => Forall_nil _
            | o :: l' =>
                Forall_cons o
                  (match o return P (LLM.nextNode o) with
                   | LLM.Option _ next => StoryNodeLLM_induction P step next
                   end)
                  (each l')
            end) options)
  end.

(** ** Descriptions and the trees the table holds *)



(** The description without the options of its ending nodes. *)
Fixpoint without_options_after_ending (n : LLM.StoryNodeLLM)
  : LLM.StoryNodeLLM :=
  match n with
  | LLM.Node c isEnding w options =>
      LLM.Node c isEnding w
        (if isEnding then []
         else map (fun o => LLM.Option (LLM.text o)
                              (without_options_after_ending (LLM.nextNode o)))
                  options)
  end.

(** The row of an id: the first of the table that has it. *)
Definition row_of (rows : list StoryNode.t) (i : nat) : option StoryNode.t :=
  List.find (fun r => Nat.eqb (StoryNode.id r) i) rows.

(** The table holds the description [n] at id [i]: the row of [i] has the
    content and the flags of [n], and its options, in order, have the texts
    of the options of [n] and lead to rows that hold their nodes, none of
    them a root. *)
Inductive Stored (rows : list StoryNode.t)
  : nat -> bool -> LLM.StoryNodeLLM -> Prop :=
| Stored_node i is_root c e w options row :
    row_of rows i = Some row ->
    StoryNode.content row = c ->
    StoryNode.is_root row = is_root ->
    StoryNode.is_ending row = e ->
    StoryNode.is_winning_ending row = w ->
    StoredOptions rows (StoryNode.options row) options ->
    Stored rows i is_root (LLM.Node c e w options)
with StoredOptions (rows : list StoryNode.t)
  : list StoryNode.option_row -> list LLM.StoryOptionLLM -> Prop :=
| Stored_nil : StoredOptions rows [] []
| Stored_cons option_row o options_list options :
    StoryNode.text option_row = LLM.text o ->
    Stored rows (StoryNode.node_id option_row) false (LLM.nextNode o) ->
    StoredOptions rows options_list options ->
    StoredOptions rows (option_row :: options_list) (o :: options).

(** A computation that raises no [RequestException]. *)
Definition no_request_error {A} (m : outcome A) : Prop :=
  forall e, m = Raise e -> is_RequestException e = false.

(** ** What one call of [generate_story] adds *)

(** The story row a call adds. *)
Definition new_story (R : Runtime) (db : Session) (session_id theme : str)
  : Story.t :=
  {| Story.id := fresh_id (map Story.id (stories (pending db)));
     Story.title := LLM.title (story_structure R theme);
     Story.session_id := session_id |}.

(** The node rows a call adds. *)
Definition new_rows (R : Runtime) (db : Session) (theme : str)
  : list StoryNode.t :=
  rows_from (fresh_id (map Story.id (stories (pending db))))
            (LLM.rootNode (story_structure R theme)) true (next_node_id db).

(** What a call of [generate_story] leaves when it ends with a story of one
    node: the story row, with the given title, added to the stories; one
    node row added for it, a root and an ending without options, with the
    given content; everything committed. *)
Definition single_node_story (db db' : Session) (story : Story.t)
    (title session_id content : str) (winning : bool) : Prop :=
  Story.title story = title
  /\ Story.session_id story = session_id
  /\ durable db' = pending db'
  /\ stories (pending db') = stories (pending db) ++ [story]
  /\ exists node,
      story_nodes (pending db') = story_nodes (pending db) ++ [node]
      /\ StoryNode.story_id node = Story.id story
      /\ StoryNode.content node = content
      /\ StoryNode.is_root node = true
      /\ StoryNode.is_ending node = true
      /\ StoryNode.is_winning_ending node = winning
      /\ StoryNode.options node = [].

(** The ids the options of a row lead to. *)
Definition option_targets (r : StoryNode.t) : list nat :=
  map StoryNode.node_id (StoryNode.options r).

(** Every option of the row leads to an id above the id of the row and
    below [bound]. *)
Definition targets_within (bound : nat) (r : StoryNode.t) : Prop :=
  Forall (fun i => StoryNode.id r < i < bound) (option_targets r).

(** ** One runtime, to run the definitions on *)

Module Example.

Definition upper (c : char) : char :=
  if N.leb 97 c && N.leb c 122 then (c - 32)%N else c.

Definition lower (c : char) : char :=
  if N.leb 65 c && N.leb c 90 then (c + 32)%N else c.

(** [str.capitalize] on unaccented letters. *)
Definition capitalize_ascii (s : str) : str :=
  match s with
  | [] => []
  | c :: rest => upper c :: map lower rest
  end.

(** Modelled from the spec: the validation of [core/models.py], which is not
    among the sources.  A description is an object with a string [title]
    and a [rootNode]; a node is an object with a string [content], boolean
    [isEnding] and [isWinningEnding] and a list [options]; an option is an
    object with a string [text] and a node [nextNode].  A missing or
    mistyped field fails the validation.  Fuel bounds the nesting. *)
Fixpoint validate_node (fuel : nat) (j : json) : option LLM.StoryNodeLLM :=
  match fuel with
  | O => None
  | S fuel' =>
      match j with
      | JObj pairs =>
          match dict_get pairs (py "content"), dict_get pairs (py "isEnding"),
                dict_get pairs (py "isWinningEnding"),
                dict_get pairs (py "options") with
          | Some (JStr c), Some (JBool e), Some (JBool w), Some (JArr items) =>
              let validate_option (o : json) : option LLM.StoryOptionLLM :=
                match o with
                | JObj fields =>
                    match dict_get fields (py "text"),
                          dict_get fields (py "nextNode") with
                    | Some (JStr t), Some next =>
                        match validate_node fuel' next with
                        | Some n => Some (LLM.Option t n)
                        | None => None
                        end
                    | _, _ => None
                    end
                | _ => None
                end in
              match
                fold_right
                  (fun o acc =>
                     match validate_option o, acc with
                     | Some x, Some l => Some (x :: l)
                     | _, _ => None
                     end)
                  (Some []) items
              with
              | Some options => Some (LLM.Node c e w options)
              | None => None
              end
          | _, _, _, _ => None
          end
      | _ => None
      end
  end.

Definition validate_response (j : json) : outcome LLM.StoryLLMResponse :=
  match j with
  | JObj pairs =>
      match dict_get pairs (py "title"), dict_get pairs (py "rootNode") with
      | Some (JStr t), Some root =>
          match validate_node 64 root with
          | Some n => Ok {| LLM.title := t; LLM.rootNode := n |}
          | None => Raise (ValidationError (py "validation error for StoryLLMResponse"))
          end
      | _, _ => Raise (ValidationError (py "validation error for StoryLLMResponse"))
      end
  | _ => Raise (ValidationError (py "validation error for StoryLLMResponse"))
  end.

(** [repr(s)] for a string of printable characters: between apostrophes,
    or between double quotes when it holds an apostrophe and no double
    quote; backslashes, the enclosing quote and control characters
    escaped. *)
Definition hex_char (n : N) : char :=
  if N.ltb n 10 then (48 + n)%N else (87 + n)%N.

Definition repr_str (s : str) : str :=
  let quote :=
    if existsb (N.eqb 39) s && negb (existsb (N.eqb QUOTE) s)
    then QUOTE else 39%N in
  let escape (c : char) : str :=
    if N.eqb c BACKSLASH then [BACKSLASH; BACKSLASH]
    else if N.eqb c quote then [BACKSLASH; c]
    else if N.eqb c 10 then [BACKSLASH; chr "n"]
    else if N.eqb c 13 then [BACKSLASH; chr "r"]
    else if N.eqb c 9 then [BACKSLASH; chr "t"]
    else if N.ltb c 32 || N.eqb c 127 then
      [BACKSLASH; chr "x"; hex_char (c / 16); hex_char (c mod 16)]
    else [c] in
  quote :: flat_map escape s ++ [quote].

Definition join (sep : str) (l : list str) : str :=
  match l with
  | [] => []
  | x :: rest => x ++ List.concat (map (fun y => sep ++ y) rest)
  end.

(** The items of the [dict] made from pairs: one for each key, at the
    place of its first pair, with the value of its last. *)
Fixpoint last_value {A} (pairs : list (str * A)) (k : str) : option A :=
  match pairs with
  | [] => None
  | (k', v) :: rest =>
      match last_value rest k with
      | Some v' => Some v'
      | None => if str_eqb k' k then Some v else None
      end
  end.

Fixpoint dict_items {A} (seen : list str) (pairs all : list (str * A))
  : list (str * A) :=
  match pairs with
  | [] => []
  | (k, _) :: rest =>
      if existsb (str_eqb k) seen then dict_items seen rest all
      else
        match last_value all k with
        | Some v => (k, v) :: dict_items (k :: seen) rest all
        | None => dict_items seen rest all
        end
  end.

(** ** [repr] of a float

    The lexeme is read as the nearest double, a tie to the even one, and
    written with the fewest digits that read back as that double. *)

(** [n / d] rounded to the nearest integer, a tie to the even one. *)
Definition div_round_even (n d : Z) : Z :=
  let q := (n / d)%Z in
  match (2 * (n mod d) ?= d)%Z with
  | Lt => q
  | Gt => (q + 1)%Z
  | Eq => if Z.even q then q else (q + 1)%Z
  end.

Definition scale (n k : Z) (base : Z) : Z * Z :=
  if (0 <=? k)%Z then ((n * base ^ k)%Z, 1%Z) else (n, (base ^ (- k))%Z).

(** The double nearest to [num / den], both positive: [(m, e)] for
    [m * 2^e] with [2^52 <= m < 2^53], or [e = -1074] for a smaller one;
    [None] above the largest double. *)
Definition to_double (num den : Z) : option (Z * Z) :=
  let l0 := (Z.log2 num - Z.log2 den)%Z in
  let l :=
    if (0 <=? l0)%Z
    then (if (den * 2 ^ l0 <=? num)%Z then l0 else l0 - 1)%Z
    else (if (den <=? num * 2 ^ (- l0))%Z then l0 else l0 - 1)%Z in
  let e := Z.max (l - 52) (-1074) in
  let m :=
    if (0 <=? e)%Z then div_round_even num (den * 2 ^ e)
    else div_round_even (num * 2 ^ (- e)) den in
  let (m, e) := if (m =? 2 ^ 53)%Z then ((2 ^ 52)%Z, (e + 1)%Z) else (m, e) in
  if (971 <? e)%Z then None else Some (m, e).

(** The double a decimal [n * 10^k] reads as. *)
Definition read_decimal (n k : Z) : option (Z * Z) :=
  if (n =? 0)%Z then Some (0%Z, (-1074)%Z)
  else if (0 <? k)%Z && (1025 <=? Z.log2 n + 3 * k)%Z then None
  else if (k <? 0)%Z && (Z.log2 n + 1 + 3 * k <=? -1076)%Z
       then Some (0%Z, (-1074)%Z)
  else let (num, den) := scale n k 10 in to_double num den.

(** [10^t <= vn / vd] *)
Definition pow10_le (t vn vd : Z) : bool :=
  if (0 <=? t)%Z then (10 ^ t * vd <=? vn)%Z else (vd <=? vn * 10 ^ (- t))%Z.

Fixpoint log10_up (fuel : nat) (t vn vd : Z) : Z :=
  match fuel with
  | O => t
  | S fuel' =>
      if pow10_le (t + 1) vn vd then log10_up fuel' (t + 1) vn vd else t
  end.

Fixpoint log10_down (fuel : nat) (t vn vd : Z) : Z :=
  match fuel with
  | O => t
  | S fuel' =>
      if pow10_le t vn vd then t else log10_down fuel' (t - 1) vn vd
  end.

(** The [t] with [10^t <= vn / vd < 10^(t+1)]. *)
Definition floor_log10 (vn vd : Z) : Z :=
  let est := ((Z.log2 vn - Z.log2 vd) * 1233 / 4096)%Z in
  log10_up 4 (log10_down 4 est vn vd) vn vd.

(** The decimals of [n] digits next to the double [(m, e)], and of them the
    one that reads back as the double, the nearer if both do. *)
Definition digits_of_length (m e : Z) (n : Z) : option (Z * Z) :=
  let (vn, vd) := scale m e 2 in
  let k := (floor_log10 vn vd - n + 1)%Z in
  let lo :=
    if (0 <=? k)%Z then (vn / (vd * 10 ^ k))%Z else (vn * 10 ^ (- k) / vd)%Z in
  let hi := (lo + 1)%Z in
  let back (d : Z) : bool :=
    match read_decimal d k with
    | Some (m', e') => (m' =? m)%Z && (e' =? e)%Z
    | None => false
    end in
  (* is [lo] at least as near as [hi]: 2 v <= (2 lo + 1) 10^k *)
  let lo_nearer :=
    let (cn, cd) := scale (2 * lo + 1) k 10 in
    match (2 * vn * cd ?= cn * vd)%Z with
    | Lt => true
    | Gt => false
    | Eq => Z.even lo
    end in
  match back lo, back hi with
  | true, true => Some (if lo_nearer then lo else hi, k)
  | true, false => Some (lo, k)
  | false, true => Some (hi, k)
  | false, false => None
  end.

Fixpoint shortest (fuel : nat) (m e n : Z) : Z * Z :=
  match fuel with
  | O => (m, 0%Z)
  | S fuel' =>
      match digits_of_length m e n with
      | Some dk => dk
      | None => shortest fuel' m e (n + 1)
      end
  end.

Fixpoint strip_zeros (fuel : nat) (d k : Z) : Z * Z :=
  match fuel with
  | O => (d, k)
  | S fuel' =>
      if (d mod 10 =? 0)%Z then strip_zeros fuel' (d / 10) (k + 1) else (d, k)
  end.

Definition decimal (n : Z) : str := py (NilZero.string_of_int (Z.to_int n)).

(** [repr] of a positive double from its shortest digits [ds] and the
    place [decpt] of the point: [0.ds * 10^decpt]. *)
Definition float_repr_digits (ds : str) (decpt : Z) : str :=
  if (decpt <=? -4)%Z || (16 <? decpt)%Z then
    let mantissa :=
      match ds with
      | [d] => [d]
      | d :: rest => d :: DOT :: rest
      | [] => []
      end in
    let x := (decpt - 1)%Z in
    let xs := decimal (Z.abs x) in
    mantissa ++ [chr "e"; if (x <? 0)%Z then MINUS else PLUS]
    ++ (if Nat.ltb (List.length xs) 2 then 48%N :: xs else xs)
  else if (decpt <=? 0)%Z then
    py "0." ++ repeat 48%N (Z.to_nat (- decpt)) ++ ds
  else if (Z.of_nat (List.length ds) <=? decpt)%Z then
    ds ++ repeat 48%N (Z.to_nat decpt - List.length ds) ++ py ".0"
  else firstn (Z.to_nat decpt) ds ++ DOT :: skipn (Z.to_nat decpt) ds.

(** [repr(float(lexeme))] for the lexeme of a JSON number or constant. *)
Definition float_repr (lexeme : str) : str :=
  if str_eqb lexeme (py "NaN") then py "nan"
  else if str_eqb lexeme (py "Infinity") then py "inf"
  else if str_eqb lexeme (py "-Infinity") then py "-inf"
  else
    match match_integer lexeme with
    | None => lexeme
    | Some (integer, r) =>
        let (frac, r1) :=
          match match_frac r with Some p => p | None => ([], r) end in
        let exp :=
          match match_exp r1 with Some (x, _) => x | None => [] end in
        let sign :=
          match integer with
          | c :: _ => if N.eqb c MINUS then [MINUS] else []
          | [] => []
          end in
        let n := int_of_digits (filter is_digit (integer ++ frac)) in
        let x :=
          let a := int_of_digits (filter is_digit exp) in
          if existsb (N.eqb MINUS) exp then (- a)%Z else a in
        let k := (x - Z.of_nat (List.length (filter is_digit frac)))%Z in
        sign ++
        match read_decimal n k with
        | None => py "inf"
        | Some (m, e) =>
            if (m =? 0)%Z then py "0.0"
            else
              let (d0, k0) := shortest 17 m e 1 in
              let (d, k') := strip_zeros 400 d0 k0 in
              let ds := decimal d in
              float_repr_digits ds (Z.of_nat (List.length ds) + k')
        end
    end.

(** [repr(v)]: [None], [True], [False], an integer in decimal, a float by
    its shortest digits, a string between quotes, a list and a dict with
    the [repr] of what they hold. *)
Fixpoint repr (v : json) : str :=
  match v with
  | JNull => py "None"
  | JBool true => py "True"
  | JBool false => py "False"
  | JInt n => py (NilZero.string_of_int (Z.to_int n))
  | JFloat lexeme => float_repr lexeme
  | JStr s => repr_str s
  | JArr items => py "[" ++ join (py ", ") (map repr items) ++ py "]"
  | JObj pairs =>
      let rendered :=
        map (fun kv : str * json => let (k, x) := kv in (k, repr x)) pairs in
      py "{"
      ++ join (py ", ")
           (map (fun kt : str * str =>
                   repr_str (fst kt) ++ py ": " ++ snd kt)
                (dict_items [] rendered rendered))
      ++ py "}"
  end.

(** What [generate_story] meets with a value that is not a string: [len]
    refuses [None], a boolean and a number; [json.loads] refuses a list
    and a dict, and in the handler of that error the validation refuses a
    list as content (the first line of its text) and a dict refuses to be
    sliced. *)
Definition non_str_error (v : json) : exn :=
  match v with
  | JArr _ => ValidationError (py "1 validation error for StoryNodeLLM")
  | JObj _ => TypeError (py "unhashable type: 'slice'")
  | _ => TypeError (py "object of type '" ++ type_name v
                    ++ py "' has no len()")
  end.

(** The limits of CPython 3.11 as it starts: 4300 digits, and a recursion
    limit of 1000 less the frames in use where [json.loads] is called. *)
Definition limits : Limits :=
  {| int_max_str_digits := 4300; max_depth := 988 |}.

(** A runtime whose HTTP exchange has the given outcome. *)
Definition runtime (answer : outcome json) : Runtime :=
  {| GOOGLE_API_KEY := py "key";
     STORY_PROMPT := py "Write a branching story.";
     requests_post := fun _ _ _ => answer;
     model_validate := validate_response;
     capitalize := capitalize_ascii;
     format_value := repr;
     non_str_response := non_str_error;
     extract_limits := limits;
     story_limits :=
       {| int_max_str_digits := 4300; max_depth := 990 |} |}.

(** A 2xx answer with one candidate of one part. *)
Definition answer_with_text (text : str) : outcome json :=
  Ok (JObj [ (py "candidates",
              JArr [ JObj [ (py "content",
                             JObj [ (py "parts",
                                     JArr [ JObj [ (py "text", JStr text) ] ]) ]) ] ]) ]).

Definition empty_session : Session :=
  {| pending := {| stories := []; story_nodes := [] |};
     durable := {| stories := []; story_nodes := [] |} |}.

(** A session with one story of two nodes already committed. *)
Definition used_session : Session :=
  let d :=
    {| stories := [ {| Story.id := 1; Story.title := py "Old";
                       Story.session_id := py "s0" |} ];
       story_nodes :=
         [ {| StoryNode.id := 1; StoryNode.story_id := 1;
              StoryNode.content := py "start"; StoryNode.is_root := true;
              StoryNode.is_ending := false;
              StoryNode.is_winning_ending := false;
              StoryNode.options :=
                [ {| StoryNode.text := py "go"; StoryNode.node_id := 2 |} ] |};
           {| StoryNode.id := 2; StoryNode.story_id := 1;
              StoryNode.content := py "end"; StoryNode.is_root := false;
              StoryNode.is_ending := true;
              StoryNode.is_winning_ending := true;
              StoryNode.options := [] |} ] |} in
  {| pending := d; durable := d |}.

(** The answer of the model for a story of one choice between two endings,
    wrapped in prose. *)
Definition two_endings_text : str :=
  pyq "Here is your story: {'title': 'The Cave', 'rootNode': {'content': 'A cave {dark}.', 'isEnding': false, 'isWinningEnding': false, 'options': [{'text': 'Enter', 'nextNode': {'content': 'Gold!', 'isEnding': true, 'isWinningEnding': true, 'options': []}}, {'text': 'Leave', 'nextNode': {'content': 'Home.', 'isEnding': true, 'isWinningEnding': false, 'options': []}}]}} Enjoy!".

(** The object in [two_endings_text], what [json.loads] makes of it and
    the description it stands for. *)
Definition two_endings_object : str :=
  pyq "{'title': 'The Cave', 'rootNode': {'content': 'A cave {dark}.', 'isEnding': false, 'isWinningEnding': false, 'options': [{'text': 'Enter', 'nextNode': {'content': 'Gold!', 'isEnding': true, 'isWinningEnding': true, 'options': []}}, {'text': 'Leave', 'nextNode': {'content': 'Home.', 'isEnding': true, 'isWinningEnding': false, 'options': []}}]}}".

Definition two_endings_json : json :=
  match json_loads limits two_endings_object with
  | Ok j => j
  | Raise _ => JNull
  end.

Definition two_endings_story : LLM.StoryLLMResponse :=
  {| LLM.title := py "The Cave";
     LLM.rootNode :=
       LLM.Node (py "A cave {dark}.") false false
         [ LLM.Option (py "Enter") (LLM.Node (py "Gold!") true true []);
           LLM.Option (py "Leave") (LLM.Node (py "Home.") true false []) ] |}.

(** An answer that is JSON and no description of a story. *)
Definition not_a_story_text : str := pyq "Sorry: {'title': 5, 'note': 'none'}".

(** Text that is not JSON, longer than 500 characters. *)
Definition long_text : str :=
  py "Once upon a time " ++ List.concat (repeat (py "and then ") 58) ++ py "."
  ++ [8217%N].

(** A 2xx body whose first candidate has no [content]. *)
Definition answer_without_content : outcome json :=
  Ok (JObj [ (py "candidates",
              JArr [ JObj [ (py "finishReason", JStr (py "SAFETY")) ] ]) ]).

(** The text of an object that holds an integer of 4301 digits. *)
Definition long_integer_object : str :=
  pyq "{'n': " ++ repeat 49%N 4301 ++ py "}".

(** Limits that no text of the length of [s] reaches: no bound on the
    digits of an integer, and as many levels as the text has characters.
    What [json_loads] accepts under them is what the grammar of the decoder
    accepts. *)
Definition no_limits (s : str) : Limits :=
  {| int_max_str_digits := 0; max_depth := List.length s |}.



End Example.

(** * Properties *)

(** ** The brace scan, one character at a time *)

Lemma is_plain_inv c :
  is_plain c = true ->
  N.eqb c LBRACE = false /\ N.eqb c RBRACE = false
  /\ N.eqb c QUOTE = false /\ N.eqb c BACKSLASH = false.
Proof.
  unfold is_plain. intros H.
  repeat (apply andb_prop in H; destruct H as [H ?]).
  repeat split; apply negb_true_iff; assumption.
Qed.

Lemma scan_plain c rest i st d :
  is_plain c = true -> (0 < d)%Z ->
  scan_braces (c :: rest) i st d false false
  = scan_braces rest (S i) st d false false.
Proof.
  intros Hc Hd. apply is_plain_inv in Hc as (H1 & H2 & H3 & H4).
  cbn [scan_braces]. rewrite H1, H2, H3, H4. cbn [andb negb].
  destruct (Z.eqb_spec d 0); [lia | reflexivity].
Qed.

Lemma scan_open_quote rest i st d :
  scan_braces (QUOTE :: rest) i st d false false
  = scan_braces rest (S i) st d true false.
Proof. reflexivity. Qed.

Lemma scan_close_quote rest i st d :
  (0 < d)%Z ->
  scan_braces (QUOTE :: rest) i st d true false
  = scan_braces rest (S i) st d false false.
Proof.
  intros Hd. cbn. destruct (Z.eqb_spec d 0); [lia | reflexivity].
Qed.

Lemma scan_string_char c rest i st d :
  N.eqb c QUOTE = false -> N.eqb c BACKSLASH = false ->
  scan_braces (c :: rest) i st d true false
  = scan_braces rest (S i) st d true false.
Proof.
  intros H1 H2. cbn [scan_braces]. rewrite H1, H2. reflexivity.
Qed.

Lemma scan_string_escape x rest i st d :
  scan_braces (BACKSLASH :: x :: rest) i st d true false
  = scan_braces rest (S (S i)) st d true false.
Proof.
  cbn [scan_braces].
  change (N.eqb BACKSLASH BACKSLASH) with true. cbn [andb negb].
  rewrite !andb_false_r. reflexivity.
Qed.

Lemma scan_open_brace rest i st d :
  (0 <= d)%Z ->
  scan_braces (LBRACE :: rest) i st d false false
  = scan_braces rest (S i) st (d + 1) false false.
Proof.
  intros Hd. cbn. destruct (Z.eqb_spec (d + 1) 0); [lia | reflexivity].
Qed.

Lemma scan_close_brace rest i st d :
  (1 < d)%Z ->
  scan_braces (RBRACE :: rest) i st d false false
  = scan_braces rest (S i) st (d - 1) false false.
Proof.
  intros Hd. cbn. destruct (Z.eqb_spec (d - 1) 0); [lia | reflexivity].
Qed.

Lemma scan_matching_brace rest i st :
  st < i ->
  scan_braces (RBRACE :: rest) i st 1 false false = Some i.
Proof.
  intros Hi. cbn -[Nat.ltb]. apply Nat.ltb_lt in Hi. rewrite Hi. reflexivity.
Qed.

Lemma scan_string_body b :
  StringBody b ->
  forall rest i st d,
    scan_braces (b ++ rest) i st d true false
    = scan_braces rest (i + List.length b) st d true false.
Proof.
  induction 1 as [| c b H1 H2 Hb IH | x b Hb IH]; intros rest i st d.
  - cbn. rewrite Nat.add_0_r. reflexivity.
  - cbn [app List.length]. rewrite scan_string_char by assumption.
    rewrite IH. f_equal. lia.
  - cbn [app List.length]. rewrite scan_string_escape.
    rewrite IH. f_equal. lia.
Qed.

Lemma scan_neutral t :
  Neutral t ->
  forall rest i st d,
    (0 < d)%Z ->
    scan_braces (t ++ rest) i st d false false
    = scan_braces rest (i + List.length t) st d false false.
Proof.
  induction 1 as [| c t Hc Ht IH | b t Hb Ht IH | u t Hu IHu Ht IHt];
    intros rest i st d Hd.
  - cbn. rewrite Nat.add_0_r. reflexivity.
  - cbn [app List.length]. rewrite scan_plain by assumption.
    rewrite IH by assumption. f_equal. lia.
  - cbn [app List.length]. rewrite scan_open_quote.
    rewrite <- app_assoc. rewrite scan_string_body by assumption.
    cbn [app]. rewrite scan_close_quote by assumption.
    rewrite IH by assumption. f_equal.
    rewrite length_app. cbn [List.length]. lia.
  - cbn [app List.length]. rewrite scan_open_brace by lia.
    rewrite <- app_assoc. rewrite IHu by lia.
    cbn [app]. rewrite scan_close_brace by lia.
    replace (d + 1 - 1)%Z with d by lia.
    rewrite IHt by assumption. f_equal.
    rewrite length_app. cbn [List.length]. lia.
Qed.

Lemma Neutral_app a b : Neutral a -> Neutral b -> Neutral (a ++ b).
Proof.
  induction 1 as [| c t Hc Ht IH | s t Hs Ht IH | u t Hu IHu Ht IHt];
    intros Hb; cbn [app].
  - assumption.
  - apply N_plain; auto.
  - rewrite <- app_assoc. cbn [app]. apply N_string; auto.
  - rewrite <- app_assoc. cbn [app]. apply N_braces; auto.
Qed.

(** ** What the decoder consumes *)

Lemma Neutral_Plain l : Plain l -> Neutral l.
Proof.
  induction 1; [apply N_nil | apply N_plain; assumption].
Qed.

Ltac bool_facts :=
  repeat match goal with
    | H : _ && _ = true |- _ => apply andb_prop in H; destruct H
    | H : _ || _ = true |- _ => apply orb_prop in H; destruct H
    | H : N.leb _ _ = true |- _ => apply N.leb_le in H
    | H : N.ltb _ _ = false |- _ => apply N.ltb_ge in H
    | H : N.eqb _ _ = true |- _ => apply N.eqb_eq in H
    | H : N.eqb _ _ = false |- _ => apply N.eqb_neq in H
    end.

Ltac plain_char :=
  unfold is_plain, LBRACE, RBRACE, QUOTE, BACKSLASH;
  repeat (apply andb_true_intro; split);
  apply negb_true_iff, N.eqb_neq;
  unfold MINUS, PLUS, DOT, COLON, COMMA, LBRACKET, RBRACKET, chr in *;
  cbn in *; lia.

Lemma is_ws_plain c : is_ws c = true -> is_plain c = true.
Proof. unfold is_ws. intros H. bool_facts; subst; reflexivity. Qed.

Lemma is_digit_plain c : is_digit c = true -> is_plain c = true.
Proof. unfold is_digit. intros H. bool_facts. plain_char. Qed.

Lemma skip_ws_split s : exists w, s = w ++ skip_ws s /\ Plain w.
Proof.
  induction s as [| c s IH].
  - exists []. split; [reflexivity | constructor].
  - cbn [skip_ws]. destruct (is_ws c) eqn:Hc.
    + destruct IH as (w & Hw & Pw). exists (c :: w). split.
      * cbn. congruence.
      * constructor; [apply is_ws_plain; assumption | assumption].
    + exists []. split; [reflexivity | constructor].
Qed.

Lemma hex_digit_body h n :
  hex_digit h = Some n ->
  N.eqb h QUOTE = false /\ N.eqb h BACKSLASH = false.
Proof.
  unfold hex_digit, QUOTE, BACKSLASH. intros H.
  destruct (N.leb 48 h && N.leb h 57) eqn:E1;
    [| destruct (N.leb 97 h && N.leb h 102) eqn:E2;
       [| destruct (N.leb 65 h && N.leb h 70) eqn:E3; [| discriminate]]];
    bool_facts; split; apply N.eqb_neq; lia.
Qed.

Lemma hex4_body h1 h2 h3 h4 n b :
  hex4 h1 h2 h3 h4 = Some n ->
  StringBody b -> StringBody (h1 :: h2 :: h3 :: h4 :: b).
Proof.
  unfold hex4. intros H Hb.
  destruct (hex_digit h1) eqn:E1; [| discriminate].
  destruct (hex_digit h2) eqn:E2; [| discriminate].
  destruct (hex_digit h3) eqn:E3; [| discriminate].
  destruct (hex_digit h4) eqn:E4; [| discriminate].
  apply hex_digit_body in E1, E2, E3, E4.
  repeat (apply SB_char; try tauto).
Qed.

Lemma scanstring_split_bounded n :
  forall s v r,
    List.length s <= n ->
    scanstring s = Some (v, r) ->
    exists b, s = b ++ QUOTE :: r /\ StringBody b.
Proof.
  induction n as [| n IH]; intros s v r Hn Hs.
  - destruct s; [discriminate | cbn in Hn; lia].
  - destruct s as [| c rest]; [discriminate |].
    cbn [scanstring] in Hs. cbn [List.length] in Hn.
    destruct (N.eqb c QUOTE) eqn:Eq.
    { injection Hs as <- <-. apply N.eqb_eq in Eq. subst c.
      exists []. split; [reflexivity | constructor]. }
    destruct (N.eqb c BACKSLASH) eqn:Eb.
    + apply N.eqb_eq in Eb. subst c.
      destruct rest as [| esc rest1]; [discriminate |].
      cbn [List.length] in Hn.
      destruct (N.eqb esc (chr "u")) eqn:Eu.
      * destruct rest1 as [| h1 [| h2 [| h3 [| h4 rest2]]]]; try discriminate.
        destruct (hex4 h1 h2 h3 h4) as [uni |] eqn:Eh; [| discriminate].
        cbn [List.length] in Hn.
        assert (Hplain : forall v' r',
                   scanstring rest2 = Some (v', r') ->
                   exists b, BACKSLASH :: esc :: h1 :: h2 :: h3 :: h4 :: rest2
                             = b ++ QUOTE :: r' /\ StringBody b).
        { intros v' r' H2.
          apply IH in H2 as (b & -> & Hb); [| lia].
          exists (BACKSLASH :: esc :: h1 :: h2 :: h3 :: h4 :: b).
          split; [reflexivity |].
          apply SB_escape. eapply hex4_body; eassumption. }
        destruct rest2 as [| b0 [| u0 [| g1 [| g2 [| g3 [| g4 rest3]]]]]];
          try (destruct (scanstring _) as [[v' r'] |] eqn:E2 in Hs;
               [injection Hs as <- <-; eapply Hplain; eassumption
               | discriminate]).
        destruct (is_high_surrogate uni && N.eqb b0 BACKSLASH
                  && N.eqb u0 (chr "u")
                  && match hex4 g1 g2 g3 g4 with
                     | Some u2 => is_low_surrogate u2
                     | None => false
                     end) eqn:Epair.
        -- destruct (hex4 g1 g2 g3 g4) as [u2 |] eqn:Eg; [| discriminate].
           destruct (scanstring rest3) as [[v' r'] |] eqn:E3; [| discriminate].
           injection Hs as <- <-.
           apply IH in E3 as (b & -> & Hb); [| cbn [List.length] in Hn; lia].
           apply andb_prop in Epair as [Epair _].
           apply andb_prop in Epair as [Epair _].
           apply andb_prop in Epair as [_ Eb0].
           apply N.eqb_eq in Eb0. subst b0.
           exists (BACKSLASH :: esc :: h1 :: h2 :: h3 :: h4
                   :: BACKSLASH :: u0 :: g1 :: g2 :: g3 :: g4 :: b).
           split; [reflexivity |].
           apply SB_escape. eapply hex4_body; [eassumption |].
           apply SB_escape. eapply hex4_body; eassumption.
        -- destruct (scanstring _) as [[v' r'] |] eqn:E2 in Hs;
             [| discriminate].
           injection Hs as <- <-. eapply Hplain; eassumption.
      * destruct (BACKSLASH_table esc); [| discriminate].
        destruct (scanstring rest1) as [[v' r'] |] eqn:E1; [| discriminate].
        injection Hs as <- <-.
        apply IH in E1 as (b & -> & Hb); [| lia].
        exists (BACKSLASH :: esc :: b). split; [reflexivity |].
        apply SB_escape. assumption.
    + destruct (N.ltb c 32); [discriminate |].
      destruct (scanstring rest) as [[v' r'] |] eqn:E1; [| discriminate].
      injection Hs as <- <-.
      apply IH in E1 as (b & -> & Hb); [| lia].
      exists (c :: b). split; [reflexivity |].
      apply SB_char; assumption.
Qed.

Lemma scanstring_split s v r :
  scanstring s = Some (v, r) ->
  exists b, s = b ++ QUOTE :: r /\ StringBody b.
Proof. apply (@scanstring_split_bounded (List.length s)). lia. Qed.

Lemma span_digits_split s ds r :
  span_digits s = (ds, r) -> s = ds ++ r /\ Plain ds.
Proof.
  revert ds r. induction s as [| c s IH]; intros ds r H; cbn in H.
  - injection H as <- <-. split; [reflexivity | constructor].
  - destruct (is_digit c) eqn:Ec.
    + destruct (span_digits s) as [ds' r'] eqn:E.
      injection H as <- <-. destruct (IH _ _ eq_refl) as [-> P].
      split; [reflexivity |].
      constructor; [apply is_digit_plain; assumption | assumption].
    + injection H as <- <-. split; [reflexivity | constructor].
Qed.

Lemma Plain_app a b : Plain a -> Plain b -> Plain (a ++ b).
Proof. intros Ha Hb. apply Forall_app. split; assumption. Qed.

Lemma match_integer_split s l r :
  match_integer s = Some (l, r) -> s = l ++ r /\ Plain l.
Proof.
  unfold match_integer. intros H.
  assert (Hsign : exists sign s1,
             (match s with
              | c :: r0 => if N.eqb c MINUS then ([MINUS], r0) else ([], s)
              | [] => ([], s)
              end) = (sign, s1) /\ s = sign ++ s1 /\ Plain sign).
  { destruct s as [| c r0].
    - exists [], []. repeat split. constructor.
    - destruct (N.eqb c MINUS) eqn:Ec.
      + apply N.eqb_eq in Ec. subst c. exists [MINUS], r0.
        repeat split. constructor; [reflexivity | constructor].
      + exists [], (c :: r0). repeat split. constructor. }
  destruct Hsign as (sign & s1 & Es & -> & Psign). rewrite Es in H.
  destruct s1 as [| d r0]; [discriminate |].
  destruct (N.eqb d 48) eqn:E0.
  - injection H as <- <-. apply N.eqb_eq in E0. subst d. split.
    + rewrite <- app_assoc. reflexivity.
    + apply Plain_app; [assumption |].
      constructor; [reflexivity | constructor].
  - destruct (is_digit d) eqn:Ed; [| discriminate].
    destruct (span_digits r0) as [ds r'] eqn:E.
    injection H as <- <-. apply span_digits_split in E as [-> P]. split.
    + rewrite <- app_assoc. reflexivity.
    + apply Plain_app; [assumption |].
      constructor; [apply is_digit_plain; assumption | assumption].
Qed.

Lemma match_frac_split s l r :
  match_frac s = Some (l, r) -> s = l ++ r /\ Plain l.
Proof.
  unfold match_frac. intros H.
  destruct s as [| c [| d r0]]; try discriminate.
  destruct (N.eqb c DOT && is_digit d) eqn:E; [| discriminate].
  destruct (span_digits r0) as [ds r'] eqn:Es.
  injection H as <- <-. apply span_digits_split in Es as [-> P].
  apply andb_prop in E as [Ec Ed]. apply N.eqb_eq in Ec. subst c.
  split; [reflexivity |].
  constructor; [reflexivity |].
  constructor; [apply is_digit_plain; assumption | assumption].
Qed.

Lemma match_exp_split s l r :
  match_exp s = Some (l, r) -> s = l ++ r /\ Plain l.
Proof.
  unfold match_exp. intros H.
  destruct s as [| e [| sg r0]]; try discriminate.
  destruct (N.eqb e (chr "e") || N.eqb e (chr "E")) eqn:Ee; [| discriminate].
  assert (Pe : is_plain e = true).
  { apply orb_prop in Ee as [Ee | Ee]; apply N.eqb_eq in Ee; subst e;
      reflexivity. }
  destruct (is_digit sg) eqn:Esg.
  - destruct (span_digits r0) as [ds r'] eqn:Es.
    injection H as <- <-. apply span_digits_split in Es as [-> P].
    split; [reflexivity |].
    constructor; [assumption |].
    constructor; [apply is_digit_plain; assumption | assumption].
  - destruct (N.eqb sg MINUS || N.eqb sg PLUS) eqn:Esign; [| discriminate].
    assert (Psg : is_plain sg = true).
    { apply orb_prop in Esign as [E | E]; apply N.eqb_eq in E; subst sg;
        reflexivity. }
    destruct r0 as [| d r2]; [discriminate |].
    destruct (is_digit d) eqn:Ed; [| discriminate].
    destruct (span_digits r2) as [ds r'] eqn:Es.
    injection H as <- <-. apply span_digits_split in Es as [-> P].
    split; [reflexivity |].
    constructor; [assumption |].
    constructor; [assumption |].
    constructor; [apply is_digit_plain; assumption | assumption].
Qed.

Lemma match_number_split L s v r :
  match_number L s = Some (Ok (v, r)) -> exists l, s = l ++ r /\ Plain l.
Proof.
  unfold match_number. intros H.
  destruct (match_integer s) as [[integer r0] |] eqn:Ei; [| discriminate].
  apply match_integer_split in Ei as [-> Pi].
  assert (Hf : exists frac r1,
             (match match_frac r0 with
              | Some (f, r') => (f, r')
              | None => ([], r0)
              end) = (frac, r1) /\ r0 = frac ++ r1 /\ Plain frac).
  { destruct (match_frac r0) as [[f r'] |] eqn:Ef.
    - apply match_frac_split in Ef as [-> P]. eauto.
    - exists [], r0. repeat split. constructor. }
  destruct Hf as (frac & r1 & Ef & -> & Pf). rewrite Ef in H.
  assert (He : exists exp r2,
             (match match_exp r1 with
              | Some (e, r') => (e, r')
              | None => ([], r1)
              end) = (exp, r2) /\ r1 = exp ++ r2 /\ Plain exp).
  { destruct (match_exp r1) as [[e r'] |] eqn:Ee.
    - apply match_exp_split in Ee as [-> P]. eauto.
    - exists [], r1. repeat split. constructor. }
  destruct He as (exp & r2 & Ee & -> & Pe). rewrite Ee in H.
  exists (integer ++ frac ++ exp). split.
  - destruct frac, exp; try destruct (int_too_long L integer);
      try discriminate; injection H as <- <-;
      rewrite <- ?app_assoc; reflexivity.
  - repeat apply Plain_app; assumption.
Qed.

Lemma strip_prefix_split p : forall s r,
  strip_prefix p s = Some r -> s = p ++ r.
Proof.
  induction p as [| a p IH]; intros s r H; cbn in H.
  - injection H as <-. reflexivity.
  - destruct s as [| b s]; [discriminate |].
    destruct (N.eqb_spec a b) as [<- |]; [| discriminate].
    cbn. f_equal. apply IH. assumption.
Qed.

Lemma Plain_py_letters :
  Plain (py "null") /\ Plain (py "true") /\ Plain (py "false")
  /\ Plain (py "NaN") /\ Plain (py "Infinity") /\ Plain (py "-Infinity").
Proof. repeat split; repeat constructor. Qed.

Lemma match_constant_split s v r :
  match_constant s = Some (v, r) -> exists l, s = l ++ r /\ Plain l.
Proof.
  unfold match_constant. intros H.
  destruct Plain_py_letters as (_ & _ & _ & P1 & P2 & P3).
  destruct (strip_prefix (py "NaN") s) eqn:E1.
  { injection H as <- <-. apply strip_prefix_split in E1. eauto. }
  destruct (strip_prefix (py "Infinity") s) eqn:E2.
  { injection H as <- <-. apply strip_prefix_split in E2. eauto. }
  destruct (strip_prefix (py "-Infinity") s) eqn:E3; [| discriminate].
  injection H as <- <-. apply strip_prefix_split in E3. eauto.
Qed.

Create HintDb neutral.
#[local] Hint Resolve N_nil N_plain N_string N_braces Neutral_app Neutral_Plain
  : neutral.
#[local] Hint Extern 1 (is_plain _ = true) => reflexivity : neutral.

Ltac list_eq := repeat (rewrite <- app_assoc || cbn [app]); reflexivity.

Lemma decoder_consumes L fuel :
  (forall depth s v r,
      scan_once L fuel depth s = Ok (v, r) ->
      exists c, s = c ++ r /\ Neutral c)
  /\ (forall depth s pairs r,
      object_members L fuel depth s = Ok (pairs, r) ->
      exists u, s = u ++ RBRACE :: r /\ Neutral (QUOTE :: u))
  /\ (forall depth s values r,
      array_items L fuel depth s = Ok (values, r) ->
      exists c, s = c ++ r /\ Neutral c).
Proof.
  induction fuel as [| fuel (IHv & IHo & IHa)];
    [repeat split; intros; discriminate |].
  destruct Plain_py_letters as (Pnull & Ptrue & Pfalse & _).
  split; [| split].
  - intros depth s v r H. cbn [scan_once] in H.
    destruct s as [| nextchar rest]; [discriminate |].
    destruct (N.eqb nextchar QUOTE) eqn:Eq.
    { apply N.eqb_eq in Eq. subst nextchar.
      destruct (scanstring rest) as [[v' r'] |] eqn:Es; [| discriminate].
      injection H as <- <-.
      apply scanstring_split in Es as (b & -> & Hb).
      exists (QUOTE :: b ++ [QUOTE]). split; [list_eq | auto with neutral]. }
    destruct (N.eqb nextchar LBRACE) eqn:El.
    { apply N.eqb_eq in El. subst nextchar.
      destruct depth as [| depth]; [discriminate |].
      destruct (skip_ws_split rest) as (w & Ew & Pw).
      destruct (skip_ws rest) as [| c r1]; [discriminate |].
      destruct (N.eqb c RBRACE) eqn:Er.
      { injection H as <- <-. apply N.eqb_eq in Er. subst c rest.
        exists (LBRACE :: w ++ [RBRACE]).
        split; [list_eq | auto with neutral]. }
      destruct (N.eqb c QUOTE) eqn:Eq'; [| discriminate].
      apply N.eqb_eq in Eq'. subst c rest.
      destruct (object_members L fuel depth r1) as [[pairs r'] | e] eqn:Eo;
        [| discriminate].
      injection H as <- <-.
      apply IHo in Eo as (u & -> & Hu).
      exists (LBRACE :: (w ++ QUOTE :: u) ++ [RBRACE]).
      split; [list_eq | auto with neutral]. }
    destruct (N.eqb nextchar LBRACKET) eqn:Ek.
    { apply N.eqb_eq in Ek. subst nextchar.
      destruct depth as [| depth]; [discriminate |].
      destruct (skip_ws_split rest) as (w & Ew & Pw).
      destruct (skip_ws rest) as [| c r1]; [discriminate |].
      destruct (N.eqb c RBRACKET) eqn:Er.
      { injection H as <- <-. apply N.eqb_eq in Er. subst c rest.
        exists (LBRACKET :: w ++ [RBRACKET]).
        split; [list_eq |].
        apply N_plain; [reflexivity |].
        apply Neutral_app; auto with neutral. }
      destruct (array_items L fuel depth (c :: r1)) as [[values r'] | e] eqn:Ea;
        [| discriminate].
      injection H as <- <-.
      apply IHa in Ea as (c' & Ec & Hc). rewrite Ec in Ew. subst rest.
      exists (LBRACKET :: w ++ c'). split; [list_eq |].
      apply N_plain; [reflexivity | auto with neutral]. }
    destruct (strip_prefix (py "null") (nextchar :: rest)) eqn:E1.
    { injection H as <- <-. apply strip_prefix_split in E1.
      eauto with neutral. }
    destruct (strip_prefix (py "true") (nextchar :: rest)) eqn:E2.
    { injection H as <- <-. apply strip_prefix_split in E2.
      eauto with neutral. }
    destruct (strip_prefix (py "false") (nextchar :: rest)) eqn:E3.
    { injection H as <- <-. apply strip_prefix_split in E3.
      eauto with neutral. }
    destruct (match_number L (nextchar :: rest)) as [x |] eqn:En.
    { subst x. apply match_number_split in En as (l & -> & Pl).
      eauto with neutral. }
    destruct (match_constant (nextchar :: rest)) as [[v' r'] |] eqn:Ec;
      [| discriminate].
    injection H as <- <-.
    apply match_constant_split in Ec as (l & -> & Pl).
    eauto with neutral.
  - intros depth s pairs r H. cbn [object_members] in H.
    destruct (scanstring s) as [[key r0] |] eqn:Es; [| discriminate].
    apply scanstring_split in Es as (b & -> & Hb).
    destruct (skip_ws_split r0) as (w1 & E1 & P1).
    destruct (skip_ws r0) as [| colon r2]; [discriminate |].
    destruct (N.eqb colon COLON) eqn:Ec; [| discriminate].
    apply N.eqb_eq in Ec. subst colon r0.
    destruct (skip_ws_split r2) as (w2 & E2 & P2).
    destruct (scan_once L fuel depth (skip_ws r2)) as [[value r4] | e] eqn:Ev;
      [| discriminate].
    apply IHv in Ev as (cv & Ecv & Hcv). rewrite Ecv in E2. subst r2.
    destruct (skip_ws_split r4) as (w3 & E3 & P3).
    destruct (skip_ws r4) as [| c r6]; [discriminate |].
    destruct (N.eqb c RBRACE) eqn:Er.
    { injection H as <- <-. apply N.eqb_eq in Er. subst c r4.
      exists (b ++ QUOTE :: w1 ++ COLON :: w2 ++ cv ++ w3).
      split; [list_eq |].
      apply N_string; [assumption |].
      apply Neutral_app; [auto with neutral |].
      apply N_plain; [reflexivity |].
      auto 6 with neutral. }
    destruct (N.eqb c COMMA) eqn:Em; [| discriminate].
    apply N.eqb_eq in Em. subst c r4.
    destruct (skip_ws_split r6) as (w4 & E4 & P4).
    destruct (skip_ws r6) as [| q r8]; [discriminate |].
    destruct (N.eqb q QUOTE) eqn:Eq; [| discriminate].
    apply N.eqb_eq in Eq. subst q r6.
    destruct (object_members L fuel depth r8) as [[pairs' r9] | e] eqn:Eo;
      [| discriminate].
    injection H as <- <-.
    apply IHo in Eo as (u & -> & Hu).
    exists (b ++ QUOTE :: w1 ++ COLON :: w2 ++ cv ++ w3 ++ COMMA :: w4
            ++ QUOTE :: u).
    split; [list_eq |].
    apply N_string; [assumption |].
    apply Neutral_app; [auto with neutral |].
    apply N_plain; [reflexivity |].
    apply Neutral_app; [auto with neutral |].
    apply Neutral_app; [assumption |].
    apply Neutral_app; [auto with neutral |].
    apply N_plain; [reflexivity |].
    apply Neutral_app; [auto with neutral | assumption].
  - intros depth s values r H. cbn [array_items] in H.
    destruct (scan_once L fuel depth s) as [[value r0] | e] eqn:Ev;
      [| discriminate].
    apply IHv in Ev as (cv & -> & Hcv).
    destruct (skip_ws_split r0) as (w1 & E1 & P1).
    destruct (skip_ws r0) as [| c r2]; [discriminate |].
    destruct (N.eqb c RBRACKET) eqn:Er.
    { injection H as <- <-. apply N.eqb_eq in Er. subst c r0.
      exists (cv ++ w1 ++ [RBRACKET]). split; [list_eq |].
      apply Neutral_app; [assumption |].
      apply Neutral_app; auto with neutral. }
    destruct (N.eqb c COMMA) eqn:Em; [| discriminate].
    apply N.eqb_eq in Em. subst c r0.
    destruct (skip_ws_split r2) as (w2 & E2 & P2).
    destruct (array_items L fuel depth (skip_ws r2)) as [[values' r4] | e] eqn:Ea;
      [| discriminate].
    injection H as <- <-.
    apply IHa in Ea as (c' & Ec & Hc). rewrite Ec in E2. subst r2.
    exists (cv ++ w1 ++ COMMA :: w2 ++ c'). split; [list_eq |].
    apply Neutral_app; [assumption |].
    apply Neutral_app; [auto with neutral |].
    apply N_plain; [reflexivity | auto with neutral].
Qed.

Lemma scan_once_object L fuel depth rest v r :
  scan_once L fuel depth (LBRACE :: rest) = Ok (v, r) ->
  exists u, rest = u ++ RBRACE :: r /\ Neutral u.
Proof.
  destruct fuel as [| fuel]; [discriminate |].
  cbn [scan_once]. change (N.eqb LBRACE QUOTE) with false.
  change (N.eqb LBRACE LBRACE) with true. cbv iota. intros H.
  destruct depth as [| depth]; [discriminate |].
  destruct (skip_ws_split rest) as (w & Ew & Pw).
  destruct (skip_ws rest) as [| c r1]; [discriminate |].
  destruct (N.eqb c RBRACE) eqn:Er.
  { injection H as <- <-. apply N.eqb_eq in Er. subst c.
    exists w. split; [assumption | auto with neutral]. }
  destruct (N.eqb c QUOTE) eqn:Eq; [| discriminate].
  apply N.eqb_eq in Eq. subst c.
  destruct (object_members L fuel depth r1) as [[pairs r'] | e] eqn:Eo;
    [| discriminate].
  injection H as <- <-.
  apply (decoder_consumes L fuel) in Eo as (u & -> & Hu).
  exists (w ++ QUOTE :: u). split; [rewrite Ew; list_eq | auto with neutral].
Qed.

Lemma skip_ws_length s : List.length (skip_ws s) <= List.length s.
Proof.
  destruct (skip_ws_split s) as (w & E & _).
  rewrite E at 2. rewrite length_app. lia.
Qed.

Lemma scanstring_length s v r :
  scanstring s = Some (v, r) -> List.length r < List.length s.
Proof.
  intros H. apply scanstring_split in H as (b & -> & _).
  rewrite length_app. cbn [List.length]. lia.
Qed.

Lemma scan_once_length L fuel depth s v r :
  scan_once L fuel depth s = Ok (v, r) -> List.length r <= List.length s.
Proof.
  intros H. apply (decoder_consumes L fuel) in H as (c & -> & _).
  rewrite length_app. lia.
Qed.

(** Fuel beyond twice the length of the text changes nothing: the decoder
    never fails for want of fuel in [json_loads]. *)
Lemma decoder_fuel L fuel :
  (forall depth s fuel',
      2 * List.length s + 1 <= fuel -> fuel <= fuel' ->
      scan_once L fuel' depth s = scan_once L fuel depth s)
  /\ (forall depth s fuel',
      2 * List.length s + 1 <= fuel -> fuel <= fuel' ->
      object_members L fuel' depth s = object_members L fuel depth s)
  /\ (forall depth s fuel',
      2 * List.length s + 2 <= fuel -> fuel <= fuel' ->
      array_items L fuel' depth s = array_items L fuel depth s).
Proof.
  induction fuel as [| fuel (IHv & IHo & IHa)];
    [repeat split; intros; lia |].
  split; [| split]; intros depth s [| fuel'] Hs Hf; try lia.
  - cbn [scan_once].
    destruct s as [| nextchar rest]; [reflexivity |].
    cbn [List.length] in Hs.
    destruct (N.eqb nextchar QUOTE); [reflexivity |].
    destruct (N.eqb nextchar LBRACE).
    { destruct depth as [| depth]; [reflexivity |].
      pose proof (skip_ws_length rest) as Hw.
      destruct (skip_ws rest) as [| c r1]; [reflexivity |].
      cbn [List.length] in Hw.
      destruct (N.eqb c RBRACE); [reflexivity |].
      destruct (N.eqb c QUOTE); [| reflexivity].
      rewrite (IHo depth r1 fuel') by lia. reflexivity. }
    destruct (N.eqb nextchar LBRACKET); [| reflexivity].
    destruct depth as [| depth]; [reflexivity |].
    pose proof (skip_ws_length rest) as Hw.
    destruct (skip_ws rest) as [| c r1]; [reflexivity |].
    destruct (N.eqb c RBRACKET); [reflexivity |].
    rewrite (IHa depth (c :: r1) fuel') by lia. reflexivity.
  - cbn [object_members].
    destruct (scanstring s) as [[key r] |] eqn:Es; [| reflexivity].
    apply scanstring_length in Es.
    pose proof (skip_ws_length r) as Hw1.
    destruct (skip_ws r) as [| colon r2]; [reflexivity |].
    cbn [List.length] in Hw1.
    destruct (N.eqb colon COLON); [| reflexivity].
    pose proof (skip_ws_length r2) as Hw2.
    rewrite (IHv depth (skip_ws r2) fuel') by lia.
    destruct (scan_once L fuel depth (skip_ws r2)) as [[value r4] | e] eqn:Ev;
      [| reflexivity].
    apply scan_once_length in Ev.
    pose proof (skip_ws_length r4) as Hw3.
    destruct (skip_ws r4) as [| c r6]; [reflexivity |].
    cbn [List.length] in Hw3.
    destruct (N.eqb c RBRACE); [reflexivity |].
    destruct (N.eqb c COMMA); [| reflexivity].
    pose proof (skip_ws_length r6) as Hw4.
    destruct (skip_ws r6) as [| q r8]; [reflexivity |].
    cbn [List.length] in Hw4.
    destruct (N.eqb q QUOTE); [| reflexivity].
    rewrite (IHo depth r8 fuel') by lia. reflexivity.
  - cbn [array_items].
    rewrite (IHv depth s fuel') by lia.
    destruct (scan_once L fuel depth s) as [[value r] | e] eqn:Ev;
      [| reflexivity].
    apply scan_once_length in Ev.
    pose proof (skip_ws_length r) as Hw1.
    destruct (skip_ws r) as [| c r2]; [reflexivity |].
    cbn [List.length] in Hw1.
    destruct (N.eqb c RBRACKET); [reflexivity |].
    destruct (N.eqb c COMMA); [| reflexivity].
    pose proof (skip_ws_length r2) as Hw2.
    rewrite (IHa depth (skip_ws r2) fuel') by lia. reflexivity.
Qed.

Lemma json_loads_fuel L s fuel :
  2 * List.length s < fuel ->
  scan_once L fuel (max_depth L) (skip_ws s)
  = scan_once L (S (2 * List.length s)) (max_depth L) (skip_ws s).
Proof.
  intros H. pose proof (skip_ws_length s) as Hw.
  apply (decoder_fuel L (S (2 * List.length s))); lia.
Qed.

Lemma skip_ws_nil s : skip_ws s = [] -> Forall (fun c => is_ws c = true) s.
Proof.
  induction s as [| c s IH]; intros H; [constructor |].
  cbn in H. destruct (is_ws c) eqn:Ec; [| discriminate].
  constructor; auto.
Qed.

Lemma last_app_cons (a : str) x b d : last (a ++ x :: b) d = last (x :: b) d.
Proof.
  induction a as [| y a IH]; [reflexivity |].
  cbn [app]. rewrite <- IH. destruct (a ++ x :: b) eqn:E; [| reflexivity].
  destruct a; discriminate.
Qed.

Lemma last_Forall (P : char -> Prop) x l d :
  Forall P (x :: l) -> P (last (x :: l) d).
Proof.
  revert x. induction l as [| y l IH]; intros x H.
  - inversion H; assumption.
  - inversion H; subst. apply IH. assumption.
Qed.

Lemma json_loads_brace L rest :
  json_loads L (LBRACE :: rest)
  = match scan_once L (S (2 * S (List.length rest))) (max_depth L)
            (LBRACE :: rest) with
    | Raise e => Raise e
    | Ok (obj, r) =>
        match skip_ws r with
        | [] => Ok obj
        | _ :: _ => Raise JSONDecodeError
        end
    end.
Proof. reflexivity. Qed.

(** The text of an object is an opening brace, brace-neutral text and the
    closing brace, and nothing else. *)
Lemma is_json_object_shape L obj :
  is_json_object L obj = true ->
  exists u pairs,
    obj = LBRACE :: u ++ [RBRACE] /\ Neutral u
    /\ json_loads L obj = Ok (JObj pairs).
Proof.
  unfold is_json_object. destruct obj as [| c rest]; [discriminate |].
  intros H. apply andb_prop in H as [H Hl]. apply andb_prop in H as [Hc Hr].
  apply N.eqb_eq in Hc. subst c. apply N.eqb_eq in Hr.
  destruct (json_loads L (LBRACE :: rest)) as [v |] eqn:Ej; [| discriminate].
  destruct v as [| | | | | | pairs]; try discriminate.
  pose proof Ej as Ej'. rewrite json_loads_brace in Ej'.
  destruct (scan_once _ _ _ (LBRACE :: rest)) as [[v r] | e] eqn:Es;
    [| discriminate].
  destruct (skip_ws r) eqn:Ew; [| discriminate].
  apply scan_once_object in Es as (u & Erest & Hu).
  exists u, pairs. split; [| split; [assumption | reflexivity]].
  destruct r as [| x r]; [rewrite Erest; reflexivity |].
  exfalso. apply skip_ws_nil in Ew. rewrite Erest in Hr.
  change (LBRACE :: u ++ RBRACE :: x :: r)
    with ((LBRACE :: u) ++ RBRACE :: x :: r) in Hr.
  rewrite last_app_cons in Hr.
  change (RBRACE :: x :: r) with ([RBRACE] ++ x :: r) in Hr.
  rewrite last_app_cons in Hr.
  apply (@last_Forall _ _ _ 0%N) in Ew. rewrite Hr in Ew. discriminate.
Qed.

Lemma find_app_absent pre c rest :
  find pre c = None -> find (pre ++ c :: rest) c = Some (List.length pre).
Proof.
  induction pre as [| x pre IH]; cbn; intros H.
  - rewrite N.eqb_refl. reflexivity.
  - destruct (N.eqb x c); [discriminate |].
    destruct (find pre c); [discriminate |].
    rewrite IH by reflexivity. reflexivity.
Qed.

Lemma skipn_length_app (a b : str) : skipn (List.length a) (a ++ b) = b.
Proof. induction a; cbn; auto. Qed.

Lemma firstn_length_app (a b : str) : firstn (List.length a) (a ++ b) = a.
Proof. induction a; cbn; congruence. Qed.

(** The loop stops at the brace that closes the first one. *)
Lemma scan_braces_object u post start_idx :
  Neutral u ->
  scan_braces (LBRACE :: u ++ RBRACE :: post) start_idx start_idx 0 false false
  = Some (S start_idx + List.length u).
Proof.
  intros Hu. rewrite scan_open_brace by lia.
  rewrite scan_neutral by (assumption || lia).
  apply scan_matching_brace. lia.
Qed.

(** ** [_extract_json] *)

Lemma extract_json_unfold L text :
  _extract_json L text
  = match find text LBRACE with
    | None => Ok text
    | Some start_idx =>
        match matching_brace text start_idx with
        | Some i =>
            match json_loads L (slice text start_idx (i + 1)) with
            | Ok _ => Ok (slice text start_idx (i + 1))
            | Raise _ => Ok text
            end
        | None => Ok text
        end
    end.
Proof.
  unfold _extract_json, try_except, bind.
  destruct (find text LBRACE) as [start_idx |]; [| reflexivity].
  destruct (matching_brace text start_idx) as [i |]; [| reflexivity].
  destruct (json_loads _ _); reflexivity.
Qed.

(** C1, as the code has it: when the text holds, from its first opening
    brace on, the text of a JSON object that [json.loads] accepts within
    the limits [L] of the interpreter (digits of an integer, depth of
    nesting), with anything before it that has no opening brace and
    anything after it, [_extract_json] returns exactly the text of that
    object, whatever braces, quotes and escaped quotes its string literals
    hold, and [json.loads] accepts what is returned. *)
Theorem extract_json_returns_object L pre obj post :
  find pre LBRACE = None ->
  is_json_object L obj = true ->
  _extract_json L (pre ++ obj ++ post) = Ok obj
  /\ exists pairs, json_loads L obj = Ok (JObj pairs).
Proof.
  intros Hpre Hobj.
  apply is_json_object_shape in Hobj as (u & pairs & -> & Hu & Hj).
  split; [| exists pairs; assumption].
  rewrite extract_json_unfold.
  cbn [app]. rewrite find_app_absent by assumption.
  unfold matching_brace. rewrite skipn_length_app.
  rewrite <- app_assoc. cbn [app]. rewrite scan_braces_object by assumption.
  unfold slice. rewrite skipn_length_app.
  replace (S (List.length pre) + List.length u + 1 - List.length pre)
    with (List.length (LBRACE :: u ++ [RBRACE]))
    by (cbn [List.length]; rewrite length_app; cbn [List.length]; lia).
  change (LBRACE :: u ++ RBRACE :: post)
    with ((LBRACE :: u) ++ [RBRACE] ++ post).
  rewrite app_assoc. rewrite firstn_length_app.
  cbn [app]. rewrite Hj. reflexivity.
Qed.

Lemma extract_json_returns_object_witness :
  _extract_json Example.limits
    (py "Sure, here it is: "
     ++ pyq "{'a': '{not json}', 'b': ['q\'}', {'c': 1.5e3}]}"
     ++ py " } and {more}")
  = Ok (pyq "{'a': '{not json}', 'b': ['q\'}', {'c': 1.5e3}]}")
  /\ exists pairs,
      json_loads Example.limits
        (pyq "{'a': '{not json}', 'b': ['q\'}', {'c': 1.5e3}]}")
      = Ok (JObj pairs).
Proof.
  apply extract_json_returns_object; vm_compute; reflexivity.
Defined.

(** C1, as stated, fails: the text of an object whose one value is an
    integer of 4301 digits is a JSON object by the grammar (the decoder
    accepts it once the limits are lifted), and it begins at the first
    opening brace of the text; under the interpreter's default limit of
    4300 digits [json.loads] raises [ValueError], which [_extract_json]
    catches, and the whole text comes back, noise included. *)
Lemma extract_json_long_integer_not_extracted :
  (find (py "Here: ") LBRACE = None
   /\ is_json_object (Example.no_limits Example.long_integer_object)
        Example.long_integer_object = true
   /\ json_loads Example.limits Example.long_integer_object
      = Raise ValueError)
  /\ _extract_json Example.limits
       (py "Here: " ++ Example.long_integer_object ++ py " (end)")
     = Ok (py "Here: " ++ Example.long_integer_object ++ py " (end)")
  /\ _extract_json Example.limits
       (py "Here: " ++ Example.long_integer_object ++ py " (end)")
     <> Ok Example.long_integer_object.
Proof.
  split; [split; [| split]; vm_compute; reflexivity |].
  split; [vm_compute; reflexivity |].
  intros H. vm_compute in H. discriminate.
Qed.

(** [_extract_json] returns, whatever the text. *)
Lemma extract_json_returns L text :
  exists s, _extract_json L text = Ok s.
Proof.
  rewrite extract_json_unfold.
  destruct (find text LBRACE) as [start_idx |]; [| eauto].
  destruct (matching_brace text start_idx) as [i |]; [| eauto].
  destruct (json_loads _ _); eauto.
Qed.

(** Without a closing brace the loop runs to the end of the text. *)
Lemma scan_braces_no_closing chars :
  find chars RBRACE = None ->
  forall i start_idx d in_string escape_next,
    (0 < d)%Z ->
    scan_braces chars i start_idx d in_string escape_next = None.
Proof.
  induction chars as [| c chars IH]; intros Hf i st d s e Hd;
    [reflexivity |].
  cbn in Hf. destruct (N.eqb c RBRACE) eqn:Er; [discriminate |].
  destruct (find chars RBRACE); [discriminate |].
  cbn [scan_braces]. rewrite Er.
  destruct (N.eqb c BACKSLASH && negb e); [apply IH; auto |].
  destruct (negb (if N.eqb c QUOTE && negb e then negb s else s)).
  - destruct (N.eqb c LBRACE).
    + destruct (Z.eqb_spec (d + 1) 0); [lia |]. cbn [andb].
      apply IH; [reflexivity | lia].
    + destruct (Z.eqb_spec d 0); [lia |]. cbn [andb].
      apply IH; [reflexivity | lia].
  - apply IH; [reflexivity | lia].
Qed.

Lemma find_skipn text c : forall i,
  find text c = Some i -> exists rest, skipn i text = c :: rest.
Proof.
  induction text as [| x text IH]; intros i H; [discriminate |].
  cbn in H. destruct (N.eqb_spec x c) as [-> |].
  - injection H as <-. exists text. reflexivity.
  - destruct (find text c) as [j |] eqn:E; [| discriminate].
    injection H as <-. cbn. apply IH. reflexivity.
Qed.

Lemma find_none_skipn text c : forall i,
  find text c = None -> find (skipn i text) c = None.
Proof.
  induction text as [| x text IH]; intros i H.
  - destruct i; reflexivity.
  - destruct i as [| i]; [assumption |].
    cbn in H. destruct (N.eqb x c); [discriminate |].
    destruct (find text c) eqn:E; [discriminate |].
    cbn. apply IH. reflexivity.
Qed.

(** A text without a closing brace has no matching brace. *)
Lemma matching_brace_no_closing text start_idx :
  find text LBRACE = Some start_idx ->
  find text RBRACE = None ->
  matching_brace text start_idx = None.
Proof.
  intros Hs Hc. unfold matching_brace.
  apply find_skipn in Hs as (rest & E).
  apply (find_none_skipn _ _ start_idx) in Hc. rewrite E in *.
  cbn in Hc. destruct (find rest RBRACE) eqn:Er; [discriminate |].
  rewrite scan_open_brace by lia.
  apply scan_braces_no_closing; [assumption | lia].
Qed.

(** C8: when the text has no opening brace, or no closing brace, or the
    loop started at its first opening brace ends without the depth coming
    back to zero, [_extract_json] returns the text as it was given, and
    raises nothing. *)
Theorem extract_json_without_object L text :
  find text LBRACE = None
  \/ find text RBRACE = None
  \/ (exists start_idx,
        find text LBRACE = Some start_idx
        /\ matching_brace text start_idx = None) ->
  _extract_json L text = Ok text.
Proof.
  rewrite extract_json_unfold.
  intros [H | [H | (start_idx & Hs & Hm)]].
  - rewrite H. reflexivity.
  - destruct (find text LBRACE) as [start_idx |] eqn:Hs; [| reflexivity].
    rewrite (matching_brace_no_closing text start_idx Hs H). reflexivity.
  - rewrite Hs, Hm. reflexivity.
Qed.

Lemma extract_json_without_object_witness :
  _extract_json Example.limits (py "no braces here")
  = Ok (py "no braces here")
  /\ _extract_json Example.limits (pyq "so: {'a': [1, 2")
     = Ok (pyq "so: {'a': [1, 2")
  /\ _extract_json Example.limits (pyq "so: {'a': {'b': '}'")
     = Ok (pyq "so: {'a': {'b': '}'").
Proof.
  split; [| split]; apply extract_json_without_object.
  - left. vm_compute. reflexivity.
  - right. left. vm_compute. reflexivity.
  - right. right. exists 4. vm_compute. split; reflexivity.
Defined.

(** C3, as the code has it: when the loop reaches a candidate and
    [json.loads] refuses it, the error is caught inside [_extract_json],
    which returns the text as it was given. *)
Theorem extract_json_invalid_candidate L text start_idx i e :
  find text LBRACE = Some start_idx ->
  matching_brace text start_idx = Some i ->
  json_loads L (slice text start_idx (i + 1)) = Raise e ->
  _extract_json L text = Ok text.
Proof.
  intros Hs Hm Hj. rewrite extract_json_unfold, Hs, Hm, Hj. reflexivity.
Qed.

Lemma extract_json_invalid_candidate_witness :
  _extract_json Example.limits (py "see {a} and more")
  = Ok (py "see {a} and more").
Proof.
  apply (@extract_json_invalid_candidate Example.limits _ 4 6
           JSONDecodeError);
    vm_compute; reflexivity.
Defined.

(** C3, as stated, fails: for ["see {a} and more"] the loop reaches the
    candidate [{a}], which is not JSON, and nothing is raised. *)
Lemma extract_json_parse_error_not_raised :
  (find (py "see {a} and more") LBRACE = Some 4
   /\ matching_brace (py "see {a} and more") 4 = Some 6
   /\ slice (py "see {a} and more") 4 (6 + 1) = py "{a}"
   /\ json_loads Example.limits (py "{a}") = Raise JSONDecodeError)
  /\ ~ (exists e,
           _extract_json Example.limits (py "see {a} and more") = Raise e).
Proof.
  split; [repeat split; vm_compute; reflexivity |].
  intros [e H]. vm_compute in H. discriminate.
Qed.

(** ** [_process_story_node] *)

Lemma children_rows_ids rows_of options :
  Forall (fun o => forall i,
              rows_of (LLM.nextNode o) i <> []
              /\ map StoryNode.id (rows_of (LLM.nextNode o) i)
                 = seq i (List.length (rows_of (LLM.nextNode o) i)))
         options ->
  forall next,
    map StoryNode.id (fst (children_rows rows_of options next))
    = seq next (List.length (fst (children_rows rows_of options next))).
Proof.
  induction 1 as [| o options Ho Hrest IH]; intros next; [reflexivity |].
  cbn [children_rows].
  destruct (children_rows rows_of options
              (next + List.length (rows_of (LLM.nextNode o) next)))
    as [rows2 ol] eqn:E.
  cbn [fst]. rewrite map_app, length_app, seq_app.
  f_equal; [apply Ho |].
  specialize (IH (next + List.length (rows_of (LLM.nextNode o) next))).
  rewrite E in IH. exact IH.
Qed.

Lemma rows_from_ids story_id n : forall is_root next,
  rows_from story_id n is_root next <> []
  /\ map StoryNode.id (rows_from story_id n is_root next)
     = seq next (List.length (rows_from story_id n is_root next)).
Proof.
  induction n as [c e w options IH] using StoryNodeLLM_induction.
  intros is_root next. cbn [rows_from].
  destruct (negb e && match options with [] => false | _ :: _ => true end).
  - pose proof (@children_rows_ids
                  (fun n i => rows_from story_id n false i) options) as Hc.
    specialize (Hc (Forall_impl _ (fun o H i => H false i) IH) (S next)).
    destruct (children_rows _ options (S next)) as [rows ol].
    cbn [fst] in Hc. split; [discriminate |].
    cbn [map List.length seq StoryNode.id]. f_equal. exact Hc.
  - split; [discriminate | reflexivity].
Qed.

Lemma list_max_seq a k : list_max (seq a (S k)) = a + k.
Proof.
  revert a. induction k as [| k IH]; intros a.
  - cbn. lia.
  - change (seq a (S (S k))) with (a :: seq (S a) (S k)).
    change (list_max (a :: seq (S a) (S k)))
      with (Nat.max a (list_max (seq (S a) (S k)))).
    rewrite IH. lia.
Qed.

Lemma next_node_id_add_rows db rows :
  map StoryNode.id rows = seq (next_node_id db) (List.length rows) ->
  next_node_id (add_rows db rows) = next_node_id db + List.length rows.
Proof.
  unfold next_node_id, add_rows, fresh_id. cbn [pending story_nodes].
  intros H. rewrite map_app, list_max_app, H.
  destruct (List.length rows) as [| k].
  - cbn. lia.
  - rewrite list_max_seq. lia.
Qed.

Lemma add_rows_app db r1 r2 :
  add_rows (add_rows db r1) r2 = add_rows db (r1 ++ r2).
Proof.
  unfold add_rows. cbn [pending story_nodes stories durable].
  rewrite app_assoc. reflexivity.
Qed.

Lemma old_ids_below db r :
  In r (story_nodes (pending db)) -> StoryNode.id r < next_node_id db.
Proof.
  intros H. unfold next_node_id, fresh_id.
  pose proof (list_max_le (map StoryNode.id (story_nodes (pending db)))
                          (list_max (map StoryNode.id (story_nodes (pending db)))))
    as [Hle _].
  specialize (Hle (Nat.le_refl _)).
  rewrite Forall_forall in Hle.
  specialize (Hle (StoryNode.id r) (in_map _ _ _ H)). lia.
Qed.

Lemma map_unchanged (f : StoryNode.t -> StoryNode.t) rows :
  (forall r, In r rows -> f r = r) -> map f rows = rows.
Proof.
  induction rows as [| r rows IH]; intros H; [reflexivity |].
  cbn. rewrite H by (left; reflexivity).
  rewrite IH by (intros; apply H; right; assumption). reflexivity.
Qed.

Lemma seq_ids_above (rows : list StoryNode.t) a r :
  map StoryNode.id rows = seq a (List.length rows) ->
  In r rows -> a <= StoryNode.id r.
Proof.
  intros H Hr. apply (in_map StoryNode.id) in Hr. rewrite H in Hr.
  apply in_seq in Hr. lia.
Qed.

(** Assigning the options of the node of a call rewrites its row and no
    other. *)
Lemma flush_node_rewrites db node0 rows o :
  StoryNode.id node0 = next_node_id db ->
  map StoryNode.id rows = seq (S (next_node_id db)) (List.length rows) ->
  flush_node (add_rows db (node0 :: rows)) (StoryNode.set_options node0 o)
  = add_rows db (StoryNode.set_options node0 o :: rows).
Proof.
  intros Hid Hrows. unfold flush_node, add_rows.
  cbn [pending story_nodes stories durable StoryNode.set_options StoryNode.id].
  f_equal. f_equal. rewrite map_app. cbn [map].
  rewrite Nat.eqb_refl. f_equal; [| f_equal].
  - apply map_unchanged. intros r Hr. apply old_ids_below in Hr.
    destruct (Nat.eqb_spec (StoryNode.id r) (StoryNode.id node0));
      [lia | reflexivity].
  - apply map_unchanged. intros r Hr.
    eapply seq_ids_above in Hr; [| exact Hrows].
    destruct (Nat.eqb_spec (StoryNode.id r) (StoryNode.id node0));
      [lia | reflexivity].
Qed.

Lemma add_node_row db node :
  add_node db node
  = (add_rows db [StoryNode.set_id node (next_node_id db)],
     StoryNode.set_id node (next_node_id db)).
Proof. reflexivity. Qed.

Lemma hd_seq_ids (rows : list StoryNode.t) row rest a :
  rows = row :: rest ->
  map StoryNode.id rows = seq a (List.length rows) ->
  StoryNode.id row = a.
Proof. intros -> H. cbn in H. congruence. Qed.

(** The loop over the options, when each recursive call adds the rows of
    [rows_from]. *)
Lemma each_option_rows story_id options :
  Forall (fun o => forall db is_root,
              exists row rest,
                rows_from story_id (LLM.nextNode o) is_root (next_node_id db)
                = row :: rest
                /\ _process_story_node db story_id (LLM.nextNode o) is_root
                   = (add_rows db (row :: rest), row))
         options ->
  forall db acc,
    each_option
      (fun db next_node => _process_story_node db story_id next_node false)
      db options acc
    = (add_rows db
         (fst (children_rows (fun n i => rows_from story_id n false i)
                             options (next_node_id db))),
       acc ++ snd (children_rows (fun n i => rows_from story_id n false i)
                                 options (next_node_id db))).
Proof.
  induction 1 as [| o options Ho Hrest IH]; intros db acc.
  - cbn. rewrite app_nil_r. destruct db as [[st sn] du].
    unfold add_rows. cbn. rewrite app_nil_r. reflexivity.
  - cbn [each_option children_rows].
    destruct (Ho db false) as (row & rest & Erows & Eproc).
    rewrite Eproc, Erows.
    destruct (rows_from_ids story_id (LLM.nextNode o) false (next_node_id db))
      as [_ Hids].
    rewrite Erows in Hids.
    rewrite IH. rewrite next_node_id_add_rows by exact Hids.
    destruct (children_rows _ options
                (next_node_id db + List.length (row :: rest)))
      as [rows2 ol].
    cbn [fst snd]. rewrite add_rows_app.
    rewrite (@hd_seq_ids (row :: rest) row rest (next_node_id db) eq_refl Hids).
    rewrite <- app_assoc. reflexivity.
Qed.

(** One call adds the rows of [rows_from] to the table, changes nothing
    else, and returns the first of them. *)
Lemma process_story_node_rows story_id n : forall db is_root,
  exists row rest,
    rows_from story_id n is_root (next_node_id db) = row :: rest
    /\ _process_story_node db story_id n is_root
       = (add_rows db (row :: rest), row).
Proof.
  induction n as [c e w options IH] using StoryNodeLLM_induction.
  intros db is_root. cbn [_process_story_node rows_from].
  rewrite add_node_row. cbn [StoryNode.set_id StoryNode.is_ending].
  destruct (negb e && match options with [] => false | _ :: _ => true end).
  - rewrite (each_option_rows story_id options IH).
    pose proof (@children_rows_ids
                  (fun n i => rows_from story_id n false i) options) as Hc.
    specialize (Hc (Forall_impl _
                      (fun o _ i => rows_from_ids story_id (LLM.nextNode o) false i)
                      IH)).
    rewrite next_node_id_add_rows by reflexivity.
    cbn [List.length]. rewrite Nat.add_1_r.
    specialize (Hc (S (next_node_id db))).
    destruct (children_rows _ options (S (next_node_id db))) as [rows ol].
    cbn [fst snd app] in *. rewrite add_rows_app. cbn [app].
    rewrite flush_node_rewrites by (reflexivity || exact Hc).
    eexists _, _. split; reflexivity.
  - eexists _, _. split; reflexivity.
Qed.

(** ** Reading a description back from the table *)

Lemma row_of_skip pre rows i :
  (forall x, In x pre -> StoryNode.id x < i) ->
  row_of (pre ++ rows) i = row_of rows i.
Proof.
  unfold row_of. induction pre as [| x pre IH]; intros H; [reflexivity |].
  cbn. destruct (Nat.eqb_spec (StoryNode.id x) i) as [E |].
  - specialize (H x (or_introl eq_refl)). lia.
  - apply IH. intros y Hy. apply H. right. assumption.
Qed.

Lemma rows_from_head story_id n is_root next :
  exists row rest,
    rows_from story_id n is_root next = row :: rest
    /\ StoryNode.id row = next
    /\ StoryNode.story_id row = story_id
    /\ StoryNode.content row = LLM.content n
    /\ StoryNode.is_root row = is_root
    /\ StoryNode.is_ending row = LLM.isEnding n
    /\ StoryNode.is_winning_ending row = LLM.isWinningEnding n.
Proof.
  destruct n as [c e w options]. cbn [rows_from].
  destruct (negb e && match options with [] => false | _ :: _ => true end).
  - destruct (children_rows _ options (S next)) as [rows ol].
    eexists _, _. repeat split.
  - eexists _, _. repeat split.
Qed.

Lemma rows_below story_id n is_root next x :
  In x (rows_from story_id n is_root next) ->
  StoryNode.id x < next + List.length (rows_from story_id n is_root next).
Proof.
  intros H. apply (in_map StoryNode.id) in H.
  destruct (rows_from_ids story_id n is_root next) as [_ E].
  rewrite E in H. apply in_seq in H. lia.
Qed.

Lemma stored_children story_id options :
  Forall (fun o => forall is_root next pre post,
              (forall x, In x pre -> StoryNode.id x < next) ->
              Stored (pre ++ rows_from story_id (LLM.nextNode o) is_root next
                          ++ post)
                     next is_root
                     (without_options_after_ending (LLM.nextNode o)))
         options ->
  forall next pre post,
    (forall x, In x pre -> StoryNode.id x < next) ->
    StoredOptions
      (pre ++ fst (children_rows (fun n i => rows_from story_id n false i)
                                 options next) ++ post)
      (snd (children_rows (fun n i => rows_from story_id n false i)
                          options next))
      (map (fun o => LLM.Option (LLM.text o)
                       (without_options_after_ending (LLM.nextNode o)))
           options).
Proof.
  induction 1 as [| o options Ho Hrest IH]; intros next pre post Hpre.
  - cbn. constructor.
  - cbn [children_rows map].
    specialize (IH (next + List.length
                             (rows_from story_id (LLM.nextNode o) false next))
                   (pre ++ rows_from story_id (LLM.nextNode o) false next)
                   post).
    destruct (children_rows _ options
                (next + List.length
                          (rows_from story_id (LLM.nextNode o) false next)))
      as [rows2 ol].
    cbn [fst snd] in *. constructor.
    + reflexivity.
    + cbn [StoryNode.node_id LLM.nextNode]. rewrite <- app_assoc.
      apply Ho. assumption.
    + rewrite <- !app_assoc in *. apply IH.
      intros x Hx. apply in_app_or in Hx as [Hx | Hx].
      * apply Hpre in Hx. lia.
      * apply rows_below in Hx. assumption.
Qed.

(** What a call wrote can be read back from any table that holds its rows
    after rows of smaller ids: it is the description, without the options
    of its ending nodes. *)
Lemma stored_rows story_id n : forall is_root next pre post,
  (forall x, In x pre -> StoryNode.id x < next) ->
  Stored (pre ++ rows_from story_id n is_root next ++ post) next is_root
         (without_options_after_ending n).
Proof.
  induction n as [c e w options IH] using StoryNodeLLM_induction.
  intros is_root next pre post Hpre.
  cbn [rows_from without_options_after_ending].
  assert (Hrow : forall o' tail,
             row_of (pre ++ {| StoryNode.id := next;
                               StoryNode.story_id := story_id;
                               StoryNode.content := c;
                               StoryNode.is_root := is_root;
                               StoryNode.is_ending := e;
                               StoryNode.is_winning_ending := w;
                               StoryNode.options := o' |} :: tail) next
             = Some {| StoryNode.id := next;
                       StoryNode.story_id := story_id;
                       StoryNode.content := c;
                       StoryNode.is_root := is_root;
                       StoryNode.is_ending := e;
                       StoryNode.is_winning_ending := w;
                       StoryNode.options := o' |}).
  { intros o' tail. rewrite row_of_skip by assumption.
    unfold row_of. cbn. rewrite Nat.eqb_refl. reflexivity. }
  destruct e; cbn [negb andb].
  - eapply Stored_node; [apply Hrow | reflexivity .. | constructor].
  - destruct options as [| o options'] eqn:Eo.
    + eapply Stored_node; [apply Hrow | reflexivity .. | constructor].
    + rewrite <- Eo in *. clear Eo.
      pose proof (stored_children story_id options IH (S next)) as Hc.
      destruct (children_rows _ options (S next)) as [rows ol] eqn:Ec.
      cbn [fst snd] in Hc.
      eapply Stored_node; [apply Hrow | reflexivity .. |].
      cbn [StoryNode.options].
      specialize (Hc (pre ++ [ {| StoryNode.id := next;
                                 StoryNode.story_id := story_id;
                                 StoryNode.content := c;
                                 StoryNode.is_root := is_root;
                                 StoryNode.is_ending := false;
                                 StoryNode.is_winning_ending := w;
                                 StoryNode.options := ol |} ]) post).
      rewrite <- app_assoc in Hc. cbn [app] in *. apply Hc.
      intros x Hx. apply in_app_or in Hx as [Hx | [<- | []]].
      * apply Hpre in Hx. lia.
      * cbn. lia.
Qed.




(** What holds of the rows of every child holds of the rows of the
    children. *)
Lemma children_rows_Forall (P : StoryNode.t -> Prop) story_id options :
  Forall (fun o => forall next,
              Forall P (rows_from story_id (LLM.nextNode o) false next))
         options ->
  forall next,
    Forall P (fst (children_rows (fun n i => rows_from story_id n false i)
                                 options next)).
Proof.
  induction 1 as [| o options Ho _ IH]; intros next; [constructor |].
  cbn [children_rows].
  specialize (IH (next + List.length
                           (rows_from story_id (LLM.nextNode o) false next))).
  destruct (children_rows _ options _) as [rows2 ol].
  cbn [fst] in *. apply Forall_app. split; [apply Ho | assumption].
Qed.

(** Every row after the first comes from a recursive call and is not a
    root. *)
Lemma rows_from_not_root story_id n : forall is_root next,
  Forall (fun r => StoryNode.is_root r = false)
         (tl (rows_from story_id n is_root next)).
Proof.
  induction n as [c e w options IH] using StoryNodeLLM_induction.
  intros is_root next. cbn [rows_from].
  destruct (negb e && match options with [] => false | _ :: _ => true end);
    [| constructor].
  assert (Hc : Forall (fun o => forall next,
                           Forall (fun r => StoryNode.is_root r = false)
                                  (rows_from story_id (LLM.nextNode o) false next))
                      options).
  { eapply Forall_impl; [| exact IH]. intros o Ho i.
    specialize (Ho false i).
    destruct (rows_from_head story_id (LLM.nextNode o) false i)
      as (row & rest & E & _ & _ & _ & Hroot & _).
    rewrite E in *. constructor; assumption. }
  apply (children_rows_Forall _ story_id options) with (next := S next) in Hc.
  destruct (children_rows _ options (S next)) as [rows ol].
  exact Hc.
Qed.

(** Every row of a call belongs to the story of the call. *)
Lemma rows_from_story story_id n : forall is_root next,
  Forall (fun r => StoryNode.story_id r = story_id)
         (rows_from story_id n is_root next).
Proof.
  induction n as [c e w options IH] using StoryNodeLLM_induction.
  intros is_root next. cbn [rows_from].
  destruct (negb e && match options with [] => false | _ :: _ => true end);
    [| repeat constructor].
  pose proof (children_rows_Forall _ story_id options
                (Forall_impl _ (fun o H i => H false i) IH) (S next)) as Hc.
  destruct (children_rows _ options (S next)) as [rows ol].
  constructor; [reflexivity | exact Hc].
Qed.

(** A row with options is the row of a node that is not an ending. *)
Lemma rows_from_options story_id n : forall is_root next,
  Forall (fun r => StoryNode.options r <> [] -> StoryNode.is_ending r = false)
         (rows_from story_id n is_root next).
Proof.
  induction n as [c e w options IH] using StoryNodeLLM_induction.
  intros is_root next. cbn [rows_from].
  destruct e; cbn [negb andb].
  - constructor; [| constructor]. cbn. congruence.
  - destruct options as [| o options'] eqn:Eo.
    + constructor; [| constructor]. cbn. congruence.
    + rewrite <- Eo in *. clear Eo.
      pose proof (children_rows_Forall _ story_id options
                    (Forall_impl _ (fun o H i => H false i) IH) (S next)) as Hc.
      destruct (children_rows _ options (S next)) as [rows ol].
      constructor; [reflexivity | exact Hc].
Qed.

(** ** [_call_gemini_api] *)

(** C2, as the code has it: when the decoded body of a 2xx answer has no
    [error] key and either no non-empty [candidates] entry, or a first
    candidate whose [content] is there and has no non-empty [parts] entry,
    [_call_gemini_api] raises nothing: it returns the text
    ["No valid response from Gemini API"].  A first candidate without
    [content] and a first part without [text] are left out: there the
    lookup raises [KeyError]. *)
Theorem call_gemini_api_without_candidate R prompt response_json :
  requests_post R (url R) (payload prompt) 60 = Ok response_json ->
  no_usable_candidate response_json = true ->
  py_in (py "error") response_json = Ok false ->
  _call_gemini_api R prompt = Ok (JStr (py "No valid response from Gemini API")).
Proof.
  intros Hpost Hcand Herr.
  unfold _call_gemini_api. rewrite Hpost. cbn [bind try_except].
  assert (Hw : without_candidate R response_json
               = Ok (JStr (py "No valid response from Gemini API"))).
  { unfold without_candidate. rewrite Herr. reflexivity. }
  unfold no_usable_candidate in Hcand. unfold read_response.
  destruct (has_nonempty (py "candidates") response_json) as [[|] | e];
    cbn [bind]; [| rewrite Hw; reflexivity | discriminate].
  destruct (py_getitem response_json (py "candidates")) as [candidates |];
    cbn [bind] in *; [| discriminate].
  destruct (py_first candidates) as [candidate |];
    cbn [bind] in *; [| discriminate].
  destruct (py_getitem candidate (py "content")) as [content |];
    cbn [bind] in *; [| discriminate].
  destruct (has_nonempty (py "parts") content) as [[|] |];
    cbn [bind] in *; try discriminate.
  rewrite Hw. reflexivity.
Qed.

Lemma call_gemini_api_without_candidate_witness :
  _call_gemini_api
    (Example.runtime
       (Ok (JObj [ (py "candidates",
                    JArr [ JObj [ (py "content", JObj [ (py "role", JStr (py "model")) ]);
                                  (py "finishReason", JStr (py "SAFETY")) ] ]) ])))
    (py "a prompt")
  = Ok (JStr (py "No valid response from Gemini API")).
Proof.
  eapply call_gemini_api_without_candidate; vm_compute; reflexivity.
Defined.

(** C2, as stated, fails: for the body [{}], which has neither a candidate
    nor an [error] key, nothing is raised. *)
Lemma call_gemini_api_empty_body_not_raised :
  (no_usable_candidate (JObj []) = true
   /\ py_in (py "error") (JObj []) = Ok false)
  /\ ~ (exists e,
         _call_gemini_api (Example.runtime (Ok (JObj []))) (py "a prompt")
         = Raise e).
Proof.
  split; [split; vm_compute; reflexivity |].
  intros [e H]. vm_compute in H. discriminate.
Qed.

(** ** [generate_story] *)

(** A call adds one story row and the rows of the root description, commits
    them and returns the story row. *)
Lemma generate_story_rows R db session_id theme :
  generate_story R db session_id theme
  = (commit
       {| pending :=
            {| stories := stories (pending db)
                          ++ [new_story R db session_id theme];
               story_nodes := story_nodes (pending db) ++ new_rows R db theme |};
          durable := durable db |},
     new_story R db session_id theme).
Proof.
  unfold generate_story, add_story, new_rows, new_story.
  set (s := story_structure R theme).
  set (story := {| Story.id := _; Story.title := _; Story.session_id := _ |}).
  set (db1 := {| pending := _; durable := durable db |}).
  destruct (process_story_node_rows (Story.id story) (LLM.rootNode s) db1 true)
    as (row & rest & Erows & Eproc).
  rewrite Eproc.
  change (next_node_id db1) with (next_node_id db) in Erows.
  cbn [Story.id story] in Erows. rewrite Erows. reflexivity.
Qed.

Lemma story_structure_error R theme e :
  _call_gemini_api R (full_prompt R theme) = Raise e ->
  story_structure R theme = error_fallback R theme e.
Proof. unfold story_structure. intros ->. reflexivity. Qed.

Lemma story_structure_not_json R theme text e :
  _call_gemini_api R (full_prompt R theme) = Ok (JStr text) ->
  json_loads (story_limits R) text = Raise e ->
  story_structure R theme = text_fallback R theme text.
Proof.
  unfold story_structure. intros -> Hj. cbn [bind try_except].
  rewrite Hj. cbn [bind]. destruct (is_JSONDecodeError e); reflexivity.
Qed.

Lemma story_structure_validated R theme text json_data validated :
  _call_gemini_api R (full_prompt R theme) = Ok (JStr text) ->
  json_loads (story_limits R) text = Ok json_data ->
  model_validate R json_data = Ok validated ->
  story_structure R theme = validated.
Proof.
  unfold story_structure. intros -> Hj Hv. cbn [bind try_except].
  rewrite Hj. cbn [bind]. rewrite Hv. reflexivity.
Qed.

(** C4: when the API call returns text that [json.loads] refuses and that
    is longer than 500 characters, [generate_story] commits and returns a
    story titled with the capitalized theme followed by [" Story"], with
    one node: a root whose content is the first 500 characters of the text,
    an ending, a winning one, without options. *)
Theorem generate_story_text_fallback R db session_id theme text e :
  _call_gemini_api R (full_prompt R theme) = Ok (JStr text) ->
  json_loads (story_limits R) text = Raise e ->
  500 < List.length text ->
  exists db' story node,
    generate_story R db session_id theme = (db', story)
    /\ Story.title story = capitalize R theme ++ py " Story"
    /\ Story.session_id story = session_id
    /\ durable db' = pending db'
    /\ stories (durable db') = stories (pending db) ++ [story]
    /\ story_nodes (durable db') = story_nodes (pending db) ++ [node]
    /\ StoryNode.story_id node = Story.id story
    /\ StoryNode.content node = firstn 500 text
    /\ List.length (StoryNode.content node) = 500
    /\ StoryNode.is_root node = true
    /\ StoryNode.is_ending node = true
    /\ StoryNode.is_winning_ending node = true
    /\ StoryNode.options node = [].
Proof.
  intros Hcall Hjson Hlen.
  rewrite generate_story_rows. unfold new_rows, new_story.
  rewrite (story_structure_not_json R theme text e Hcall Hjson).
  cbn [text_fallback LLM.rootNode LLM.title rows_from negb andb commit].
  eexists _, _, _. split; [reflexivity |].
  cbn -[firstn]. repeat split; try reflexivity.
  apply firstn_length_le. lia.
Qed.

Lemma generate_story_text_fallback_witness :
  exists db' story node,
    generate_story (Example.runtime (Example.answer_with_text Example.long_text))
                   Example.used_session (py "s1") (py "deep space")
    = (db', story)
    /\ Story.title story
       = capitalize (Example.runtime (Example.answer_with_text Example.long_text))
                    (py "deep space") ++ py " Story"
    /\ Story.session_id story = py "s1"
    /\ durable db' = pending db'
    /\ stories (durable db') = stories (pending Example.used_session) ++ [story]
    /\ story_nodes (durable db')
       = story_nodes (pending Example.used_session) ++ [node]
    /\ StoryNode.story_id node = Story.id story
    /\ StoryNode.content node = firstn 500 Example.long_text
    /\ List.length (StoryNode.content node) = 500
    /\ StoryNode.is_root node = true
    /\ StoryNode.is_ending node = true
    /\ StoryNode.is_winning_ending node = true
    /\ StoryNode.options node = [].
Proof.
  apply (generate_story_text_fallback _ _ _ _ Example.long_text JSONDecodeError).
  - vm_compute. reflexivity.
  - vm_compute. reflexivity.
  - vm_compute. lia.
Defined.

(** C5: when the API call raises, [generate_story] raises nothing: it
    commits and returns a story titled ["Error: "], the capitalized theme
    and [" Story"], with one node: a root whose content ends with the text
    of the error, an ending, not a winning one, without options. *)
Theorem generate_story_error_fallback R db session_id theme e :
  _call_gemini_api R (full_prompt R theme) = Raise e ->
  exists db' story node,
    generate_story R db session_id theme = (db', story)
    /\ Story.title story = py "Error: " ++ capitalize R theme ++ py " Story"
    /\ Story.session_id story = session_id
    /\ durable db' = pending db'
    /\ stories (durable db') = stories (pending db) ++ [story]
    /\ story_nodes (durable db') = story_nodes (pending db) ++ [node]
    /\ StoryNode.story_id node = Story.id story
    /\ StoryNode.content node
       = py "We encountered an error while generating your story: "
         ++ str_exn e
    /\ StoryNode.is_root node = true
    /\ StoryNode.is_ending node = true
    /\ StoryNode.is_winning_ending node = false
    /\ StoryNode.options node = [].
Proof.
  intros Hcall.
  rewrite generate_story_rows. unfold new_rows, new_story.
  rewrite (story_structure_error R theme e Hcall).
  cbn [error_fallback LLM.rootNode LLM.title rows_from negb andb commit].
  eexists _, _, _. split; [reflexivity |].
  cbn. repeat split; reflexivity.
Qed.

Lemma generate_story_error_fallback_witness :
  exists db' story node,
    generate_story (Example.runtime (Raise (RequestException (py "timed out"))))
                   Example.used_session (py "s1") (py "fantasy")
    = (db', story)
    /\ Story.title story = py "Error: Fantasy Story"
    /\ StoryNode.content node
       = py "We encountered an error while generating your story: Network error when calling Gemini API: timed out"
    /\ story_nodes (durable db')
       = story_nodes (pending Example.used_session) ++ [node]
    /\ StoryNode.is_ending node = true
    /\ StoryNode.is_winning_ending node = false
    /\ StoryNode.options node = [].
Proof.
  destruct (generate_story_error_fallback
              (Example.runtime (Raise (RequestException (py "timed out"))))
              Example.used_session (py "s1") (py "fantasy")
              (Exception (py "Network error when calling Gemini API: timed out"))
              eq_refl)
    as (db' & story & node & H1 & H2 & H3 & H4 & H5 & H6 & H7 & H8 & H9
        & H10 & H11 & H12).
  exists db', story, node. repeat split; assumption.
Defined.

(** C6: when the validated description has a root that is not an ending
    and has two options, each leading to an ending node, [generate_story]
    commits three node rows: first the root, the only row with
    [is_root = true], then the two children, each with [is_ending = true];
    the options of the root row are two entries with the texts of the two
    options and the ids of the two child rows, in the order of the
    description. *)
Theorem generate_story_two_endings
    R db session_id theme text json_data validated c w t1 n1 t2 n2 :
  _call_gemini_api R (full_prompt R theme) = Ok (JStr text) ->
  json_loads (story_limits R) text = Ok json_data ->
  model_validate R json_data = Ok validated ->
  LLM.rootNode validated
  = LLM.Node c false w [LLM.Option t1 n1; LLM.Option t2 n2] ->
  LLM.isEnding n1 = true ->
  LLM.isEnding n2 = true ->
  exists db' story root child1 child2,
    generate_story R db session_id theme = (db', story)
    /\ Story.title story = LLM.title validated
    /\ durable db' = pending db'
    /\ story_nodes (durable db')
       = story_nodes (pending db) ++ [root; child1; child2]
    /\ StoryNode.is_root root = true
    /\ StoryNode.is_root child1 = false
    /\ StoryNode.is_root child2 = false
    /\ StoryNode.content root = c
    /\ StoryNode.is_ending root = false
    /\ StoryNode.content child1 = LLM.content n1
    /\ StoryNode.is_ending child1 = true
    /\ StoryNode.content child2 = LLM.content n2
    /\ StoryNode.is_ending child2 = true
    /\ StoryNode.id child1 <> StoryNode.id child2
    /\ StoryNode.options root
       = [ {| StoryNode.text := t1; StoryNode.node_id := StoryNode.id child1 |};
           {| StoryNode.text := t2; StoryNode.node_id := StoryNode.id child2 |} ].
Proof.
  intros Hcall Hjson Hvalid Hroot He1 He2.
  rewrite generate_story_rows. unfold new_rows, new_story.
  rewrite (story_structure_validated R theme text json_data validated
             Hcall Hjson Hvalid).
  rewrite Hroot.
  destruct n1 as [c1 e1 w1 o1], n2 as [c2 e2 w2 o2].
  cbn [LLM.isEnding] in He1, He2. subst e1 e2.
  cbn [rows_from children_rows LLM.nextNode LLM.text negb andb
       List.length app commit].
  eexists _, _, _, _, _. split; [reflexivity |].
  cbn. repeat split; try reflexivity.
  intros Heq. cbn in Heq. unfold next_node_id, fresh_id in Heq. lia.
Qed.

Lemma generate_story_two_endings_witness :
  exists db' story root child1 child2,
    generate_story
      (Example.runtime (Example.answer_with_text Example.two_endings_text))
      Example.used_session (py "s1") (py "fantasy")
    = (db', story)
    /\ Story.title story = py "The Cave"
    /\ story_nodes (durable db')
       = story_nodes (pending Example.used_session) ++ [root; child1; child2]
    /\ StoryNode.is_root root = true
    /\ StoryNode.is_root child1 = false
    /\ StoryNode.is_root child2 = false
    /\ StoryNode.is_ending child1 = true
    /\ StoryNode.is_ending child2 = true
    /\ StoryNode.options root
       = [ {| StoryNode.text := py "Enter";
              StoryNode.node_id := StoryNode.id child1 |};
           {| StoryNode.text := py "Leave";
              StoryNode.node_id := StoryNode.id child2 |} ].
Proof.
  destruct (generate_story_two_endings
              (Example.runtime (Example.answer_with_text Example.two_endings_text))
              Example.used_session (py "s1") (py "fantasy")
              (pyq "{'title': 'The Cave', 'rootNode': {'content': 'A cave {dark}.', 'isEnding': false, 'isWinningEnding': false, 'options': [{'text': 'Enter', 'nextNode': {'content': 'Gold!', 'isEnding': true, 'isWinningEnding': true, 'options': []}}, {'text': 'Leave', 'nextNode': {'content': 'Home.', 'isEnding': true, 'isWinningEnding': false, 'options': []}}]}}")
              _ _ (py "A cave {dark}.") false
              (py "Enter") (LLM.Node (py "Gold!") true true [])
              (py "Leave") (LLM.Node (py "Home.") true false [])
              eq_refl eq_refl eq_refl eq_refl eq_refl eq_refl)
    as (db' & story & root & child1 & child2 & H1 & H2 & H3 & H4 & H5 & H6
        & H7 & H8 & H9 & H10 & H11 & H12 & H13 & H14 & H15).
  exists db', story, root, child1, child2.
  repeat split; assumption.
Defined.




(** C9: of the rows one call of [generate_story] writes, the first, written
    for the root description, has [is_root = true], and every other one,
    written by a recursive call for the node of an option, has
    [is_root = false]; so exactly one has [is_root = true].  All of them
    belong to the story of the call. *)
Theorem generate_story_one_root R db session_id theme :
  exists db' story root rest,
    generate_story R db session_id theme = (db', story)
    /\ story_nodes (pending db') = story_nodes (pending db) ++ root :: rest
    /\ StoryNode.is_root root = true
    /\ StoryNode.content root = LLM.content (LLM.rootNode (story_structure R theme))
    /\ Forall (fun r => StoryNode.is_root r = false) rest
    /\ List.length (filter StoryNode.is_root (root :: rest)) = 1
    /\ Forall (fun r => StoryNode.story_id r = Story.id story) (root :: rest).
Proof.
  rewrite generate_story_rows.
  pose proof (rows_from_not_root
                (fresh_id (map Story.id (stories (pending db))))
                (LLM.rootNode (story_structure R theme)) true
                (next_node_id db)) as Hrest.
  pose proof (rows_from_story
                (fresh_id (map Story.id (stories (pending db))))
                (LLM.rootNode (story_structure R theme)) true
                (next_node_id db)) as Hstory.
  destruct (rows_from_head
              (fresh_id (map Story.id (stories (pending db))))
              (LLM.rootNode (story_structure R theme)) true (next_node_id db))
    as (root & rest & E & _ & _ & Hc & Hr & _).
  fold (new_rows R db theme) in E, Hrest, Hstory.
  rewrite E in *. cbn [tl] in Hrest.
  eexists _, _, root, rest. split; [reflexivity |].
  cbn [commit pending story_nodes new_story Story.id].
  repeat split; try assumption.
  cbn [filter]. rewrite Hr. cbn [List.length]. f_equal.
  clear -Hrest. induction Hrest as [| r rest Hr _ IH]; [reflexivity |].
  cbn [filter]. rewrite Hr. exact IH.
Qed.

(** C10: the row written for an ending node has no options and none of the
    nodes of its options is written, whatever options the description
    gives it; and among the rows of any call, one with options is the row
    of a node that is not an ending. *)
Theorem process_story_node_ending_is_leaf :
  (forall db story_id c w options is_root,
      exists row,
        _process_story_node db story_id (LLM.Node c true w options) is_root
        = (add_rows db [row], row)
        /\ StoryNode.is_ending row = true
        /\ StoryNode.options row = [])
  /\ (forall db story_id n is_root,
         exists row rest,
           _process_story_node db story_id n is_root
           = (add_rows db (row :: rest), row)
           /\ Forall (fun r => StoryNode.options r <> [] ->
                               StoryNode.is_ending r = false)
                     (row :: rest)).
Proof.
  split.
  - intros db story_id c w options is_root.
    eexists. split; [reflexivity | split; reflexivity].
  - intros db story_id n is_root.
    destruct (process_story_node_rows story_id n db is_root)
      as (row & rest & Erows & Eproc).
    exists row, rest. split; [assumption |].
    rewrite <- Erows. apply rows_from_options.
Qed.

(** * Further properties *)

(** ** [_extract_json]: what it returns *)

(** Once the depth is positive, the loop stops on a closing brace only. *)
Lemma scan_braces_stops_at_closing chars :
  forall i start_idx d in_string escape_next j,
    start_idx < i -> (0 < d)%Z ->
    scan_braces chars i start_idx d in_string escape_next = Some j ->
    exists before after,
      chars = before ++ RBRACE :: after /\ j = i + List.length before.
Proof.
  induction chars as [| c chars IH]; intros i st d s e j Hi Hd H;
    [discriminate |].
  assert (Hrec : forall d' s' e',
             (0 < d')%Z ->
             scan_braces chars (S i) st d' s' e' = Some j ->
             exists before after,
               c :: chars = before ++ RBRACE :: after
               /\ j = i + List.length before).
  { intros d' s' e' Hd' H'.
    apply IH in H' as (before & after & -> & ->); [| lia | assumption].
    exists (c :: before), after. split; [reflexivity | cbn; lia]. }
  cbn [scan_braces] in H.
  destruct (N.eqb c BACKSLASH && negb e); [eapply Hrec; eassumption |].
  destruct (negb (if N.eqb c QUOTE && negb e then negb s else s));
    [| eapply Hrec; eassumption].
  apply Nat.ltb_lt in Hi. rewrite Hi, andb_true_r in H.
  destruct (N.eqb c LBRACE).
  - destruct (Z.eqb_spec (d + 1) 0); [lia |].
    eapply Hrec; [| eassumption]. lia.
  - destruct (N.eqb_spec c RBRACE) as [-> |].
    + destruct (Z.eqb_spec (d - 1) 0).
      * injection H as <-. exists [], chars.
        split; [reflexivity | cbn; lia].
      * eapply Hrec; [| eassumption]. lia.
    + destruct (Z.eqb_spec d 0); [lia |].
      eapply Hrec; eassumption.
Qed.

Lemma find_firstn text c : forall i,
  find text c = Some i -> find (firstn i text) c = None.
Proof.
  induction text as [| x text IH]; intros i H; [discriminate |].
  cbn in H. destruct (N.eqb x c) eqn:Ex.
  - injection H as <-. reflexivity.
  - destruct (find text c) as [k |] eqn:E; [| discriminate].
    injection H as <-. cbn. rewrite Ex, (IH k eq_refl). reflexivity.
Qed.

Lemma scan_once_brace_value L fuel depth rest v r :
  scan_once L fuel depth (LBRACE :: rest) = Ok (v, r) ->
  exists pairs, v = JObj pairs.
Proof.
  destruct fuel as [| fuel]; [discriminate |].
  cbn [scan_once]. change (N.eqb LBRACE QUOTE) with false.
  change (N.eqb LBRACE LBRACE) with true. cbv iota. intros H.
  destruct depth as [| depth]; [discriminate |].
  destruct (skip_ws rest) as [| c r1]; [discriminate |].
  destruct (N.eqb c RBRACE); [injection H as <- _; eauto |].
  destruct (N.eqb c QUOTE); [| discriminate].
  destruct (object_members L fuel depth r1) as [[pairs r'] | e];
    [| discriminate].
  injection H as <- _. eauto.
Qed.

(** The candidate the loop reaches, when there is one: the text from the
    first opening brace to a closing brace. *)
Lemma matching_brace_candidate text start_idx j :
  find text LBRACE = Some start_idx ->
  matching_brace text start_idx = Some j ->
  exists before after,
    text = firstn start_idx text ++ (LBRACE :: before ++ [RBRACE]) ++ after
    /\ slice text start_idx (j + 1) = LBRACE :: before ++ [RBRACE].
Proof.
  intros Hs Hm. unfold matching_brace in Hm.
  destruct (find_skipn text LBRACE start_idx Hs) as (rest & Erest).
  rewrite Erest in Hm. rewrite scan_open_brace in Hm by lia.
  apply scan_braces_stops_at_closing in Hm
    as (before & after & -> & ->); [| lia | lia].
  exists before, after. split.
  - cbn [app]. rewrite <- app_assoc. cbn [app]. rewrite <- Erest.
    symmetry. apply firstn_skipn.
  - unfold slice. rewrite Erest.
    replace (S start_idx + List.length before + 1 - start_idx)
      with (List.length (LBRACE :: before ++ [RBRACE]))
      by (cbn [List.length]; rewrite length_app; cbn [List.length]; lia).
    change (LBRACE :: before ++ RBRACE :: after)
      with ((LBRACE :: before) ++ [RBRACE] ++ after).
    rewrite app_assoc. apply firstn_length_app.
Qed.

(** Text between braces that [json.loads] accepts is the text of an
    object. *)
Lemma loads_braces_is_object L before v :
  json_loads L (LBRACE :: before ++ [RBRACE]) = Ok v ->
  is_json_object L (LBRACE :: before ++ [RBRACE]) = true.
Proof.
  intros Hj. unfold is_json_object. rewrite Hj.
  change (LBRACE :: before ++ [RBRACE])
    with ((LBRACE :: before) ++ [RBRACE]).
  rewrite last_app_cons. cbn [last].
  rewrite json_loads_brace in Hj.
  destruct (scan_once _ _ _ (LBRACE :: before ++ [RBRACE]))
    as [[v' r] | e] eqn:Es; [| discriminate].
  apply scan_once_brace_value in Es as (pairs & ->).
  destruct (skip_ws r); [| discriminate].
  injection Hj as <-. reflexivity.
Qed.

(** The two ways [_extract_json] returns. *)
Lemma extract_json_cases L text s :
  _extract_json L text = Ok s ->
  s = text
  \/ exists start_idx before after v,
      find text LBRACE = Some start_idx
      /\ s = LBRACE :: before ++ [RBRACE]
      /\ text = firstn start_idx text ++ s ++ after
      /\ json_loads L s = Ok v.
Proof.
  rewrite extract_json_unfold.
  destruct (find text LBRACE) as [start_idx |] eqn:Hs;
    [| intros [= <-]; left; reflexivity].
  destruct (matching_brace text start_idx) as [j |] eqn:Hm;
    [| intros [= <-]; left; reflexivity].
  destruct (json_loads L (slice text start_idx (j + 1))) as [v |] eqn:Hj;
    [| intros [= <-]; left; reflexivity].
  intros [= <-]. right.
  destruct (matching_brace_candidate text start_idx j Hs Hm)
    as (before & after & Etext & Eslice).
  rewrite Eslice in *. exists start_idx, before, after, v. auto.
Qed.

(** X1: what [_extract_json] returns is the text it was given or, if not,
    the text of one JSON object that stands in the given text at its first
    opening brace. *)
Theorem extract_json_result L text s :
  _extract_json L text = Ok s ->
  s = text
  \/ (is_json_object L s = true
      /\ exists pre post,
          text = pre ++ s ++ post /\ find pre LBRACE = None).
Proof.
  intros H.
  destruct (extract_json_cases L text s H)
    as [-> | (start_idx & before & after & v & Hs & -> & Etext & Hj)];
    [left; reflexivity | right].
  split; [eapply loads_braces_is_object; eassumption |].
  exists (firstn start_idx text), after.
  split; [assumption | apply find_firstn; assumption].
Qed.

Lemma extract_json_result_witness :
  pyq "{'k': [1, {'n': null}]}" = py "a {b} c"
  \/ (is_json_object Example.limits (pyq "{'k': [1, {'n': null}]}") = true
      /\ exists pre post,
          pyq "see: {'k': [1, {'n': null}]} and {so} on"
          = pre ++ pyq "{'k': [1, {'n': null}]}" ++ post
          /\ find pre LBRACE = None).
Proof.
  destruct (extract_json_result Example.limits
              (pyq "see: {'k': [1, {'n': null}]} and {so} on")
              (pyq "{'k': [1, {'n': null}]}") eq_refl) as [H | H].
  - vm_compute in H. discriminate.
  - right. exact H.
Defined.

(** The scan on a text that starts, after text without an opening brace,
    with an object whose inside is brace-neutral. *)
Lemma extract_json_neutral L pre u post v :
  find pre LBRACE = None ->
  Neutral u ->
  json_loads L (LBRACE :: u ++ [RBRACE]) = Ok v ->
  _extract_json L (pre ++ (LBRACE :: u ++ [RBRACE]) ++ post)
  = Ok (LBRACE :: u ++ [RBRACE]).
Proof.
  intros Hpre Hu Hj. rewrite extract_json_unfold.
  cbn [app]. rewrite find_app_absent by assumption.
  unfold matching_brace. rewrite skipn_length_app.
  rewrite <- app_assoc. cbn [app]. rewrite scan_braces_object by assumption.
  unfold slice. rewrite skipn_length_app.
  replace (S (List.length pre) + List.length u + 1 - List.length pre)
    with (List.length (LBRACE :: u ++ [RBRACE]))
    by (cbn [List.length]; rewrite length_app; cbn [List.length]; lia).
  change (LBRACE :: u ++ RBRACE :: post)
    with ((LBRACE :: u) ++ [RBRACE] ++ post).
  rewrite app_assoc. rewrite firstn_length_app.
  cbn [app]. rewrite Hj. reflexivity.
Qed.

(** X2: [_extract_json] gives back what it returned when it is given it
    again. *)
Theorem extract_json_idempotent L text s :
  _extract_json L text = Ok s -> _extract_json L s = Ok s.
Proof.
  intros H.
  destruct (extract_json_cases L text s H)
    as [-> | (start_idx & before & after & v & _ & -> & _ & Hj)];
    [assumption |].
  apply loads_braces_is_object in Hj.
  apply is_json_object_shape in Hj as (u & pairs & E & Hu & Hj).
  rewrite E in *.
  pose proof (extract_json_neutral L [] u [] (JObj pairs) eq_refl Hu Hj)
    as E'.
  cbn [app] in E'. rewrite app_nil_r in E'. exact E'.
Qed.

Lemma extract_json_idempotent_witness :
  _extract_json Example.limits (pyq "{'k': [1, {'n': null}]}")
  = Ok (pyq "{'k': [1, {'n': null}]}")
  /\ _extract_json Example.limits (py "{oops} and }")
     = Ok (py "{oops} and }").
Proof.
  split.
  - apply (extract_json_idempotent Example.limits
             (pyq "see: {'k': [1, {'n': null}]} and {so} on")).
    vm_compute. reflexivity.
  - apply (extract_json_idempotent Example.limits (py "{oops} and }")).
    vm_compute. reflexivity.
Defined.

(** ** [_call_gemini_api]: the paths through the payload *)

Lemma no_request_error_bind {A B} (m : outcome A) (k : A -> outcome B) :
  no_request_error m -> (forall a, no_request_error (k a)) ->
  no_request_error (bind m k).
Proof.
  intros Hm Hk e. destruct m as [a | e']; cbn [bind].
  - apply Hk.
  - intros [= <-]. apply Hm. reflexivity.
Qed.

Lemma no_request_error_Ok {A} (a : A) : no_request_error (Ok a).
Proof. intros e H. discriminate. Qed.

Ltac no_request_op :=
  intros e H;
  repeat match type of H with
    | context [match ?x with _ => _ end] => destruct x
    end;
  try discriminate; injection H as <-; reflexivity.

Lemma py_in_no_request k v : no_request_error (py_in k v).
Proof. unfold py_in. no_request_op. Qed.

Lemma py_len_no_request v : no_request_error (py_len v).
Proof. unfold py_len. no_request_op. Qed.

Lemma py_first_no_request v : no_request_error (py_first v).
Proof. unfold py_first. no_request_op. Qed.

Lemma py_getitem_no_request v k : no_request_error (py_getitem v k).
Proof. unfold py_getitem. no_request_op. Qed.

Lemma py_get_no_request v k d : no_request_error (py_get v k d).
Proof. unfold py_get. no_request_op. Qed.

Lemma has_nonempty_no_request k v : no_request_error (has_nonempty k v).
Proof.
  unfold has_nonempty.
  apply no_request_error_bind; [apply py_in_no_request |].
  intros [|]; [| apply no_request_error_Ok].
  apply no_request_error_bind; [apply py_getitem_no_request |]. intros x.
  apply no_request_error_bind; [apply py_len_no_request |]. intros n.
  apply no_request_error_Ok.
Qed.

Lemma without_candidate_no_request R j :
  no_request_error (without_candidate R j).
Proof.
  unfold without_candidate.
  apply no_request_error_bind; [apply py_in_no_request |].
  intros [|]; [| apply no_request_error_Ok].
  apply no_request_error_bind; [apply py_getitem_no_request |]. intros x.
  apply no_request_error_bind; [apply py_get_no_request |]. intros m.
  intros e [= <-]. reflexivity.
Qed.

Lemma extract_json_value_no_request L v :
  no_request_error (_extract_json_value L v).
Proof.
  intros e H. destruct v; try discriminate. cbn in H.
  destruct (extract_json_returns L s) as [x E]. rewrite E in H. discriminate.
Qed.

(** What is raised while the payload is read is never an error of the
    exchange. *)
Lemma read_response_no_request R j : no_request_error (read_response R j).
Proof.
  unfold read_response.
  apply no_request_error_bind; [apply has_nonempty_no_request |].
  intros [|]; [| apply without_candidate_no_request].
  apply no_request_error_bind; [apply py_getitem_no_request |]. intros cs.
  apply no_request_error_bind; [apply py_first_no_request |]. intros c.
  apply no_request_error_bind; [apply py_getitem_no_request |]. intros ct.
  apply no_request_error_bind; [apply has_nonempty_no_request |].
  intros [|]; [| apply without_candidate_no_request].
  apply no_request_error_bind; [apply py_getitem_no_request |]. intros ps.
  apply no_request_error_bind; [apply py_first_no_request |]. intros pt.
  apply no_request_error_bind; [apply py_getitem_no_request |]. intros t.
  apply extract_json_value_no_request.
Qed.

(** X3: whatever [_call_gemini_api] raises is a plain [Exception].  When
    the exchange raised a [RequestException], its text is
    ["Network error when calling Gemini API: "] followed by the text of
    that error.  Otherwise its text is ["Error calling Gemini API: "]
    followed by the text of the error that was caught: an error of another
    class that the exchange raised, or the error that reading the decoded
    body raised. *)
Theorem call_gemini_api_raises R prompt e :
  _call_gemini_api R prompt = Raise e ->
  (exists m,
      requests_post R (url R) (payload prompt) 60
      = Raise (RequestException m)
      /\ e = Exception (py "Network error when calling Gemini API: " ++ m))
  \/ (exists e0,
         is_RequestException e0 = false
         /\ (requests_post R (url R) (payload prompt) 60 = Raise e0
             \/ exists response_json,
                 requests_post R (url R) (payload prompt) 60
                 = Ok response_json
                 /\ read_response R response_json = Raise e0)
         /\ (forall m, requests_post R (url R) (payload prompt) 60
                       <> Raise (RequestException m))
         /\ e = Exception (py "Error calling Gemini API: " ++ str_exn e0)).
Proof.
  unfold _call_gemini_api.
  destruct (requests_post R (url R) (payload prompt) 60) as [j | e1] eqn:Hp;
    cbn [bind].
  - destruct (read_response R j) as [v | e0] eqn:Hr; cbn [try_except];
      [discriminate |].
    rewrite (read_response_no_request R j e0 Hr).
    intros [= <-]. right. exists e0.
    split; [apply (read_response_no_request R j e0 Hr) |].
    split; [right; exists j; split; [reflexivity | assumption] |].
    split; [discriminate | reflexivity].
  - cbn [try_except]. destruct (is_RequestException e1) eqn:He1;
      intros [= <-].
    + destruct e1; try discriminate. left. exists msg. split; reflexivity.
    + right. exists e1. split; [assumption |].
      split; [left; reflexivity |]. split; [| reflexivity].
      intros m [= ->]. discriminate.
Qed.

Lemma call_gemini_api_raises_witness :
  (exists m,
      requests_post (Example.runtime Example.answer_without_content)
        (url (Example.runtime Example.answer_without_content))
        (payload (py "a prompt")) 60
      = Raise (RequestException m)
      /\ Exception (py "Error calling Gemini API: 'content'")
         = Exception (py "Network error when calling Gemini API: " ++ m))
  \/ (exists e0,
         is_RequestException e0 = false
         /\ (requests_post (Example.runtime Example.answer_without_content)
               (url (Example.runtime Example.answer_without_content))
               (payload (py "a prompt")) 60
             = Raise e0
             \/ exists response_json,
                 requests_post (Example.runtime Example.answer_without_content)
                   (url (Example.runtime Example.answer_without_content))
                   (payload (py "a prompt")) 60
                 = Ok response_json
                 /\ read_response
                      (Example.runtime Example.answer_without_content)
                      response_json
                    = Raise e0)
         /\ (forall m,
                requests_post (Example.runtime Example.answer_without_content)
                  (url (Example.runtime Example.answer_without_content))
                  (payload (py "a prompt")) 60
                <> Raise (RequestException m))
         /\ Exception (py "Error calling Gemini API: 'content'")
            = Exception (py "Error calling Gemini API: " ++ str_exn e0)).
Proof.
  apply (call_gemini_api_raises
           (Example.runtime Example.answer_without_content)
           (py "a prompt")).
  reflexivity.
Defined.

Lemma py_getitem_present pairs k v :
  dict_get pairs k = Some v -> py_getitem (JObj pairs) k = Ok v.
Proof. intros H. unfold py_getitem. rewrite H. reflexivity. Qed.

Lemma has_nonempty_list pairs k x l :
  dict_get pairs k = Some (JArr (x :: l)) ->
  has_nonempty k (JObj pairs) = Ok true.
Proof.
  intros H. unfold has_nonempty, py_in, dict_has.
  rewrite (py_getitem_present pairs k _ H), H. reflexivity.
Qed.

(** Without a first candidate with a first part, what is left of the
    [try] block is the test for the error object. *)
Lemma read_response_without_candidate R response_json :
  no_usable_candidate response_json = true ->
  read_response R response_json = without_candidate R response_json.
Proof.
  unfold no_usable_candidate, read_response. intros H.
  destruct (has_nonempty (py "candidates") response_json) as [[|] | e];
    cbn [bind]; [| reflexivity | discriminate].
  destruct (py_getitem response_json (py "candidates")) as [candidates |];
    cbn [bind] in *; [| discriminate].
  destruct (py_first candidates) as [candidate |];
    cbn [bind] in *; [| discriminate].
  destruct (py_getitem candidate (py "content")) as [content |];
    cbn [bind] in *; [| discriminate].
  destruct (has_nonempty (py "parts") content) as [[|] |];
    cbn [bind] in *; try discriminate.
  reflexivity.
Qed.

(** X4: when the body of a 2xx answer has no first candidate with a first
    part and holds an object under [error], [_call_gemini_api] raises an
    [Exception] whose text is ["Error calling Gemini API: "], then
    ["Gemini API error: "], then the [message] of that object, or
    ["Unknown API error"] when it has none: the error raised for the
    payload is caught and wrapped by the handler of the same [try]. *)
Theorem call_gemini_api_error_object R prompt pairs error_pairs :
  requests_post R (url R) (payload prompt) 60 = Ok (JObj pairs) ->
  no_usable_candidate (JObj pairs) = true ->
  dict_get pairs (py "error") = Some (JObj error_pairs) ->
  _call_gemini_api R prompt
  = Raise (Exception
             (py "Error calling Gemini API: Gemini API error: "
              ++ format R
                   match dict_get error_pairs (py "message") with
                   | Some m => m
                   | None => JStr (py "Unknown API error")
                   end)).
Proof.
  intros Hpost Hcand Herr.
  unfold _call_gemini_api. rewrite Hpost. cbn [bind].
  rewrite (read_response_without_candidate R _ Hcand).
  unfold without_candidate, py_in, dict_has.
  rewrite (py_getitem_present pairs _ _ Herr), Herr. cbn [bind py_get].
  destruct (dict_get error_pairs (py "message")); reflexivity.
Qed.

Lemma call_gemini_api_error_object_witness :
  _call_gemini_api
    (Example.runtime
       (Ok (JObj [ (py "error",
                    JObj [ (py "code", JInt 429);
                           (py "message", JStr (py "Quota exceeded")) ]) ])))
    (py "a prompt")
  = Raise (Exception
             (py "Error calling Gemini API: Gemini API error: Quota exceeded"))
  /\ _call_gemini_api
       (Example.runtime
          (Ok (JObj [ (py "candidates", JArr []);
                      (py "error", JObj [ (py "code", JInt 500) ]) ])))
       (py "a prompt")
     = Raise (Exception
                (py "Error calling Gemini API: Gemini API error: Unknown API error")).
Proof.
  split.
  - apply (call_gemini_api_error_object
             (Example.runtime
                (Ok (JObj [ (py "error",
                             JObj [ (py "code", JInt 429);
                                    (py "message", JStr (py "Quota exceeded")) ]) ])))
             (py "a prompt")
             [ (py "error",
                JObj [ (py "code", JInt 429);
                       (py "message", JStr (py "Quota exceeded")) ]) ]
             [ (py "code", JInt 429); (py "message", JStr (py "Quota exceeded")) ]);
      reflexivity.
  - apply (call_gemini_api_error_object
             (Example.runtime
                (Ok (JObj [ (py "candidates", JArr []);
                            (py "error", JObj [ (py "code", JInt 500) ]) ])))
             (py "a prompt")
             [ (py "candidates", JArr []);
               (py "error", JObj [ (py "code", JInt 500) ]) ]
             [ (py "code", JInt 500) ]);
      reflexivity.
Defined.

(** X5: when the first part of the first candidate of a 2xx answer holds a
    text in which, at the first opening brace, stands the text of a JSON
    object that [json.loads] accepts within the limits of the interpreter
    at the call of [_extract_json], whatever surrounds it,
    [_call_gemini_api] returns the text of that object and nothing of what
    surrounds it. *)
Theorem call_gemini_api_returns_object
    R prompt pairs candidate more content part more_parts pre obj post :
  requests_post R (url R) (payload prompt) 60 = Ok (JObj pairs) ->
  dict_get pairs (py "candidates") = Some (JArr (JObj candidate :: more)) ->
  dict_get candidate (py "content") = Some (JObj content) ->
  dict_get content (py "parts") = Some (JArr (JObj part :: more_parts)) ->
  dict_get part (py "text") = Some (JStr (pre ++ obj ++ post)) ->
  find pre LBRACE = None ->
  is_json_object (extract_limits R) obj = true ->
  _call_gemini_api R prompt = Ok (JStr obj).
Proof.
  intros Hpost Hcs Hct Hps Ht Hpre Hobj.
  unfold _call_gemini_api. rewrite Hpost. cbn [bind].
  unfold read_response.
  rewrite (has_nonempty_list pairs _ _ _ Hcs). cbn [bind].
  rewrite (py_getitem_present pairs _ _ Hcs). cbn [bind py_first].
  rewrite (py_getitem_present candidate _ _ Hct). cbn [bind].
  rewrite (has_nonempty_list content _ _ _ Hps). cbn [bind].
  rewrite (py_getitem_present content _ _ Hps). cbn [bind py_first].
  rewrite (py_getitem_present part _ _ Ht). cbn [bind _extract_json_value].
  apply is_json_object_shape in Hobj as (u & ps & -> & Hu & Hj).
  rewrite (extract_json_neutral _ pre u post _ Hpre Hu Hj). reflexivity.
Qed.

Lemma call_gemini_api_returns_object_witness :
  _call_gemini_api
    (Example.runtime
       (Example.answer_with_text
          (py "Here you go: " ++ pyq "{'title': 'T {1}', 'n': [1, 2]}"
           ++ py " - enjoy {it}!")))
    (py "a prompt")
  = Ok (JStr (pyq "{'title': 'T {1}', 'n': [1, 2]}")).
Proof.
  eapply (call_gemini_api_returns_object _ _ _ _ _ _ _ _
            (py "Here you go: ") _ (py " - enjoy {it}!"));
    reflexivity.
Defined.

(** X6: when the first candidate of a 2xx answer is an object without
    [content], [_call_gemini_api] raises an [Exception] whose text is
    ["Error calling Gemini API: 'content'"], whatever else the body
    holds. *)
Theorem call_gemini_api_candidate_without_content
    R prompt pairs candidate more :
  requests_post R (url R) (payload prompt) 60 = Ok (JObj pairs) ->
  dict_get pairs (py "candidates") = Some (JArr (JObj candidate :: more)) ->
  dict_get candidate (py "content") = None ->
  _call_gemini_api R prompt
  = Raise (Exception (py "Error calling Gemini API: 'content'")).
Proof.
  intros Hpost Hcs Hct.
  unfold _call_gemini_api. rewrite Hpost. cbn [bind].
  unfold read_response.
  rewrite (has_nonempty_list pairs _ _ _ Hcs). cbn [bind].
  rewrite (py_getitem_present pairs _ _ Hcs). cbn [bind py_first].
  unfold py_getitem. rewrite Hct. reflexivity.
Qed.

Lemma call_gemini_api_candidate_without_content_witness :
  _call_gemini_api
    (Example.runtime
       (Ok (JObj [ (py "candidates",
                    JArr [ JObj [ (py "finishReason", JStr (py "SAFETY")) ] ]);
                   (py "error", JObj [ (py "message", JStr (py "blocked")) ]) ])))
    (py "a prompt")
  = Raise (Exception (py "Error calling Gemini API: 'content'")).
Proof.
  eapply call_gemini_api_candidate_without_content; vm_compute; reflexivity.
Defined.

(** ** [generate_story]: the fallbacks, end to end *)

Lemma generate_story_single_node R db session_id theme title c w :
  story_structure R theme
  = {| LLM.title := title; LLM.rootNode := LLM.Node c true w [] |} ->
  exists db' story,
    generate_story R db session_id theme = (db', story)
    /\ single_node_story db db' story title session_id c w.
Proof.
  intros Hs. rewrite generate_story_rows. unfold new_rows, new_story.
  rewrite Hs. cbn [LLM.rootNode LLM.title rows_from negb andb commit].
  eexists _, _. split; [reflexivity |].
  unfold single_node_story.
  cbn [pending durable stories story_nodes Story.title Story.session_id].
  repeat (split; [reflexivity |]).
  eexists. repeat (split; [reflexivity |]). reflexivity.
Qed.

Lemma story_structure_not_validated R theme text json_data e :
  _call_gemini_api R (full_prompt R theme) = Ok (JStr text) ->
  json_loads (story_limits R) text = Ok json_data ->
  model_validate R json_data = Raise e ->
  story_structure R theme = text_fallback R theme text.
Proof.
  unfold story_structure. intros -> Hj Hv. cbn [bind try_except].
  rewrite Hj. cbn [bind]. rewrite Hv.
  destruct (is_JSONDecodeError e); reflexivity.
Qed.

(** X7: when the API call returns text that [json.loads] accepts and the
    validation refuses the decoded value, [generate_story] does as for text
    that [json.loads] refuses: it commits and returns a story titled with the capitalized
    theme followed by [" Story"], with one node, a winning ending whose
    content is the first 500 characters of the text. *)
Theorem generate_story_validation_fallback
    R db session_id theme text json_data e :
  _call_gemini_api R (full_prompt R theme) = Ok (JStr text) ->
  json_loads (story_limits R) text = Ok json_data ->
  model_validate R json_data = Raise e ->
  exists db' story,
    generate_story R db session_id theme = (db', story)
    /\ single_node_story db db' story
         (capitalize R theme ++ py " Story") session_id
         (firstn 500 text) true.
Proof.
  intros Hcall Hjson Hvalid.
  apply generate_story_single_node.
  apply (story_structure_not_validated R theme text json_data e);
    assumption.
Qed.

Lemma generate_story_validation_fallback_witness :
  exists db' story,
    generate_story
      (Example.runtime (Example.answer_with_text Example.not_a_story_text))
      Example.used_session (py "s1") (py "pirates")
    = (db', story)
    /\ single_node_story Example.used_session db' story
         (py "Pirates Story") (py "s1")
         (pyq "{'title': 5, 'note': 'none'}") true.
Proof.
  apply (generate_story_validation_fallback
           (Example.runtime (Example.answer_with_text Example.not_a_story_text))
           Example.used_session (py "s1") (py "pirates")
           (pyq "{'title': 5, 'note': 'none'}")
           (JObj [ (py "title", JInt 5); (py "note", JStr (py "none")) ])
           (ValidationError (py "validation error for StoryLLMResponse")));
    reflexivity.
Defined.

(** X8: when the body of a 2xx answer has no first candidate with a first
    part and no [error] key, [generate_story] commits and returns a story
    titled with the capitalized theme followed by [" Story"], whose one
    node has the content ["No valid response from Gemini API"] and is
    marked as a winning ending. *)
Theorem generate_story_no_valid_response R db session_id theme response_json :
  requests_post R (url R) (payload (full_prompt R theme)) 60
  = Ok response_json ->
  no_usable_candidate response_json = true ->
  py_in (py "error") response_json = Ok false ->
  exists db' story,
    generate_story R db session_id theme = (db', story)
    /\ single_node_story db db' story
         (capitalize R theme ++ py " Story") session_id
         (py "No valid response from Gemini API") true.
Proof.
  intros Hpost Hcand Herr.
  apply (generate_story_single_node R db session_id theme
           (capitalize R theme ++ py " Story")
           (py "No valid response from Gemini API") true).
  apply (story_structure_not_json R theme
           (py "No valid response from Gemini API") JSONDecodeError);
    [| reflexivity].
  unfold _call_gemini_api. rewrite Hpost. cbn [bind].
  rewrite (read_response_without_candidate R _ Hcand).
  unfold without_candidate. rewrite Herr. reflexivity.
Qed.

Lemma generate_story_no_valid_response_witness :
  exists db' story,
    generate_story
      (Example.runtime (Ok (JObj [ (py "candidates", JArr []) ])))
      Example.empty_session (py "s1") (py "fantasy")
    = (db', story)
    /\ single_node_story Example.empty_session db' story
         (py "Fantasy Story") (py "s1")
         (py "No valid response from Gemini API") true.
Proof.
  apply (generate_story_no_valid_response
           (Example.runtime (Ok (JObj [ (py "candidates", JArr []) ])))
           Example.empty_session (py "s1") (py "fantasy")
           (JObj [ (py "candidates", JArr []) ]));
    reflexivity.
Defined.

(** X9: when the exchange raises a [RequestException], [generate_story]
    commits and returns a story titled ["Error: "], the capitalized theme
    and [" Story"], whose one node is an ending, not a winning one, and
    whose content is ["We encountered an error while generating your
    story: Network error when calling Gemini API: "] followed by the text
    of that error. *)
Theorem generate_story_transport_error R db session_id theme m :
  requests_post R (url R) (payload (full_prompt R theme)) 60
  = Raise (RequestException m) ->
  exists db' story,
    generate_story R db session_id theme = (db', story)
    /\ single_node_story db db' story
         (py "Error: " ++ capitalize R theme ++ py " Story") session_id
         (py "We encountered an error while generating your story: Network error when calling Gemini API: "
          ++ m)
         false.
Proof.
  intros Hpost.
  apply (generate_story_single_node R db session_id theme).
  rewrite (story_structure_error R theme
             (Exception (py "Network error when calling Gemini API: " ++ m))).
  - reflexivity.
  - unfold _call_gemini_api. rewrite Hpost. reflexivity.
Qed.

Lemma generate_story_transport_error_witness :
  exists db' story,
    generate_story
      (Example.runtime (Raise (RequestException (py "connection refused"))))
      Example.used_session (py "s2") (py "noir")
    = (db', story)
    /\ single_node_story Example.used_session db' story
         (py "Error: Noir Story") (py "s2")
         (py "We encountered an error while generating your story: Network error when calling Gemini API: connection refused")
         false.
Proof.
  apply (generate_story_transport_error
           (Example.runtime (Raise (RequestException (py "connection refused"))))
           Example.used_session (py "s2") (py "noir")
           (py "connection refused")).
  reflexivity.
Defined.

(** ** Ids *)

Lemma fresh_id_above ids x : In x ids -> x < fresh_id ids.
Proof.
  intros H. unfold fresh_id.
  pose proof (list_max_le ids (list_max ids)) as [Hle _].
  specialize (Hle (Nat.le_refl _)). rewrite Forall_forall in Hle.
  specialize (Hle x H). lia.
Qed.

Lemma NoDup_fresh_seq ids n :
  NoDup ids -> NoDup (ids ++ seq (fresh_id ids) n).
Proof.
  intros H. apply NoDup_app; [assumption | apply seq_NoDup |].
  intros x Hx Hs. apply fresh_id_above in Hx. apply in_seq in Hs. lia.
Qed.

(** X10: [generate_story] keeps the ids of both tables free of
    repetitions: the story it returns has an id no earlier story has, and
    what it commits has no two stories and no two nodes of the same
    id. *)
Theorem generate_story_keeps_ids_unique R db session_id theme :
  NoDup (map Story.id (stories (pending db))) ->
  NoDup (map StoryNode.id (story_nodes (pending db))) ->
  exists db' story,
    generate_story R db session_id theme = (db', story)
    /\ ~ In (Story.id story) (map Story.id (stories (pending db)))
    /\ NoDup (map Story.id (stories (durable db')))
    /\ NoDup (map StoryNode.id (story_nodes (durable db'))).
Proof.
  intros Hstories Hnodes. rewrite generate_story_rows.
  eexists _, _. split; [reflexivity |].
  cbn [commit durable pending stories story_nodes new_story Story.id].
  split; [| split].
  - intros Hin. apply fresh_id_above in Hin. lia.
  - rewrite map_app. cbn [map new_story Story.id].
    apply (NoDup_fresh_seq _ 1). assumption.
  - rewrite map_app. unfold new_rows.
    destruct (rows_from_ids
                (fresh_id (map Story.id (stories (pending db))))
                (LLM.rootNode (story_structure R theme)) true
                (next_node_id db)) as [_ ->].
    apply NoDup_fresh_seq. assumption.
Qed.

Lemma generate_story_keeps_ids_unique_witness :
  exists db' story,
    generate_story
      (Example.runtime (Example.answer_with_text Example.two_endings_text))
      Example.used_session (py "s1") (py "fantasy")
    = (db', story)
    /\ ~ In (Story.id story)
            (map Story.id (stories (pending Example.used_session)))
    /\ NoDup (map Story.id (stories (durable db')))
    /\ NoDup (map StoryNode.id (story_nodes (durable db'))).
Proof.
  apply generate_story_keeps_ids_unique; cbn; repeat constructor;
    cbn; intuition discriminate.
Defined.

(** X11: the rows one call of [_process_story_node] writes come after the
    rows of the table, which stay as they were, and take the next ids in
    the order they are written: the row of a node, then the rows of its
    first option, then those of its second option, and so on.  The id of
    the returned row is above every id the table had. *)
Theorem process_story_node_ids db story_id n is_root :
  exists row rest,
    _process_story_node db story_id n is_root
    = (add_rows db (row :: rest), row)
    /\ map StoryNode.id (row :: rest)
       = seq (next_node_id db) (List.length (row :: rest))
    /\ forall old,
        In old (story_nodes (pending db)) ->
        StoryNode.id old < StoryNode.id row.
Proof.
  destruct (process_story_node_rows story_id n db is_root)
    as (row & rest & Erows & Eproc).
  exists row, rest. split; [assumption |].
  destruct (rows_from_ids story_id n is_root (next_node_id db)) as [_ Hids].
  rewrite Erows in Hids. split; [assumption |].
  intros old Hold. apply old_ids_below in Hold.
  cbn in Hids. injection Hids as -> _. assumption.
Qed.

(** ** [_process_story_node]: the tree in the table *)



Lemma children_rows_texts rows_of options : forall next,
  map StoryNode.text (snd (children_rows rows_of options next))
  = map LLM.text options.
Proof.
  induction options as [| o options IH]; intros next; [reflexivity |].
  cbn [children_rows].
  specialize (IH (next + List.length (rows_of (LLM.nextNode o) next))).
  destruct (children_rows rows_of options _) as [rows2 ol].
  cbn [snd map StoryNode.text] in *. rewrite IH. reflexivity.
Qed.

(** X13: the row returned for a node that is not an ending has one option
    for each option of the description, with the same texts in the same
    order. *)
Theorem process_story_node_option_texts db story_id c w options is_root :
  exists row rest,
    _process_story_node db story_id (LLM.Node c false w options) is_root
    = (add_rows db (row :: rest), row)
    /\ map StoryNode.text (StoryNode.options row) = map LLM.text options.
Proof.
  destruct (process_story_node_rows story_id (LLM.Node c false w options)
              db is_root) as (row & rest & Erows & Eproc).
  exists row, rest. split; [assumption |].
  cbn [rows_from negb andb] in Erows.
  destruct options as [| o options'] eqn:Eo.
  - injection Erows as <- _. reflexivity.
  - rewrite <- Eo in *. clear Eo.
    pose proof (children_rows_texts
                  (fun n i => rows_from story_id n false i) options
                  (S (next_node_id db))) as Ht.
    destruct (children_rows _ options (S (next_node_id db))) as [rows ol].
    injection Erows as <- _. exact Ht.
Qed.

Lemma targets_within_mono b b' r :
  b <= b' -> targets_within b r -> targets_within b' r.
Proof.
  intros Hb H. unfold targets_within in *.
  eapply Forall_impl; [| exact H]. cbn. intros i Hi. lia.
Qed.

(** The options built for a node lead to the first rows of its children. *)
Lemma children_rows_heads story_id options : forall next,
  Forall (fun i =>
            next <= i
            < next + List.length
                      (fst (children_rows
                              (fun n i => rows_from story_id n false i)
                              options next)))
         (map StoryNode.node_id
              (snd (children_rows (fun n i => rows_from story_id n false i)
                                  options next))).
Proof.
  induction options as [| o options IH]; intros next; [constructor |].
  cbn [children_rows].
  specialize (IH (next + List.length
                           (rows_from story_id (LLM.nextNode o) false next))).
  destruct (rows_from_head story_id (LLM.nextNode o) false next)
    as (row & rest & E & _).
  destruct (children_rows _ options _) as [rows2 ol].
  cbn [fst snd map StoryNode.node_id] in *.
  rewrite length_app, E in *. cbn [List.length] in *.
  constructor; [lia |].
  eapply Forall_impl; [| exact IH]. cbn. intros i Hi. lia.
Qed.

Lemma children_rows_within story_id options :
  Forall (fun o => forall next,
              Forall (targets_within
                        (next + List.length
                                  (rows_from story_id (LLM.nextNode o) false next)))
                     (rows_from story_id (LLM.nextNode o) false next))
         options ->
  forall next,
    Forall (targets_within
              (next + List.length
                        (fst (children_rows
                                (fun n i => rows_from story_id n false i)
                                options next))))
           (fst (children_rows (fun n i => rows_from story_id n false i)
                               options next)).
Proof.
  induction 1 as [| o options Ho _ IH]; intros next; [constructor |].
  cbn [children_rows].
  specialize (IH (next + List.length
                           (rows_from story_id (LLM.nextNode o) false next))).
  specialize (Ho next).
  destruct (children_rows _ options _) as [rows2 ol].
  cbn [fst] in *. rewrite length_app. apply Forall_app. split.
  - eapply Forall_impl; [| exact Ho].
    intros r. apply targets_within_mono. lia.
  - eapply Forall_impl; [| exact IH].
    intros r. apply targets_within_mono. lia.
Qed.

(** Every option of every row of a call leads to an id above the id of its
    row and among the ids of the call. *)
Lemma rows_from_within story_id n : forall is_root next,
  Forall (targets_within
            (next + List.length (rows_from story_id n is_root next)))
         (rows_from story_id n is_root next).
Proof.
  induction n as [c e w options IH] using StoryNodeLLM_induction.
  intros is_root next. cbn [rows_from].
  destruct (negb e && match options with [] => false | _ :: _ => true end).
  - pose proof (children_rows_within story_id options
                  (Forall_impl _ (fun o H i => H false i) IH) (S next)) as Hc.
    pose proof (children_rows_heads story_id options (S next)) as Hh.
    destruct (children_rows _ options (S next)) as [rows ol].
    cbn [fst snd List.length] in *. constructor.
    + unfold targets_within, option_targets.
      cbn [StoryNode.options StoryNode.id].
      eapply Forall_impl; [| exact Hh]. cbn. intros i Hi. lia.
    + eapply Forall_impl; [| exact Hc].
      intros r. apply targets_within_mono. lia.
  - constructor; [| constructor]. constructor.
Qed.

(** X14: every option of every row one call writes leads to a row of the
    same call that comes after the returned one: a row of the same story,
    not a root, with an id above the id of the row that holds the
    option. *)
Theorem process_story_node_options_resolve db story_id n is_root :
  exists row rest,
    _process_story_node db story_id n is_root
    = (add_rows db (row :: rest), row)
    /\ Forall
         (fun r =>
            Forall (fun o =>
                      exists child,
                        In child rest
                        /\ StoryNode.id child = StoryNode.node_id o
                        /\ StoryNode.is_root child = false
                        /\ StoryNode.story_id child = story_id
                        /\ StoryNode.id r < StoryNode.id child)
                   (StoryNode.options r))
         (row :: rest).
Proof.
  destruct (process_story_node_rows story_id n db is_root)
    as (row & rest & Erows & Eproc).
  exists row, rest. split; [assumption |].
  pose proof (rows_from_within story_id n is_root (next_node_id db)) as Hw.
  pose proof (rows_from_not_root story_id n is_root (next_node_id db)) as Hr.
  pose proof (rows_from_story story_id n is_root (next_node_id db)) as Hs.
  destruct (rows_from_ids story_id n is_root (next_node_id db)) as [_ Hids].
  rewrite Erows in *. cbn [tl] in Hr.
  cbn [map List.length seq] in Hids. injection Hids as Hid Hrest.
  rewrite Forall_forall in *. intros r Hin. rewrite Forall_forall. intros o Ho.
  specialize (Hw r Hin). unfold targets_within, option_targets in Hw.
  rewrite Forall_forall in Hw.
  specialize (Hw (StoryNode.node_id o) (in_map _ _ _ Ho)).
  assert (Hge : next_node_id db <= StoryNode.id r).
  { destruct Hin as [<- | Hin]; [lia |].
    apply (in_map StoryNode.id) in Hin. rewrite Hrest in Hin.
    apply in_seq in Hin. lia. }
  assert (Hchild : In (StoryNode.node_id o) (map StoryNode.id rest)).
  { rewrite Hrest. apply in_seq. cbn [List.length] in Hw. lia. }
  apply in_map_iff in Hchild as (child & Ecid & Hchild).
  exists child. split; [assumption |]. split; [assumption |].
  split; [apply Hr; assumption |].
  split; [apply Hs; right; assumption | lia].
Qed.

Lemma children_rows_targets story_id options :
  Forall (fun o => forall next,
              Permutation
                (flat_map option_targets
                          (rows_from story_id (LLM.nextNode o) false next))
                (map StoryNode.id
                     (tl (rows_from story_id (LLM.nextNode o) false next))))
         options ->
  forall next,
    Permutation
      (map StoryNode.node_id
           (snd (children_rows (fun n i => rows_from story_id n false i)
                               options next))
       ++ flat_map option_targets
            (fst (children_rows (fun n i => rows_from story_id n false i)
                                options next)))
      (map StoryNode.id
           (fst (children_rows (fun n i => rows_from story_id n false i)
                               options next))).
Proof.
  induction 1 as [| o options Ho _ IH]; intros next; [constructor |].
  cbn [children_rows].
  specialize (IH (next + List.length
                           (rows_from story_id (LLM.nextNode o) false next))).
  specialize (Ho next).
  destruct (rows_from_head story_id (LLM.nextNode o) false next)
    as (row & rest & E & Hid & _).
  destruct (children_rows _ options _) as [rows2 ol].
  cbn [fst snd map StoryNode.node_id] in *.
  rewrite E in *. cbn [tl] in Ho.
  rewrite flat_map_app, map_app. cbn [app map]. rewrite Hid.
  apply perm_skip.
  rewrite Permutation_app_swap_app.
  apply Permutation_app; assumption.
Qed.

Lemma rows_from_targets story_id n : forall is_root next,
  Permutation
    (flat_map option_targets (rows_from story_id n is_root next))
    (map StoryNode.id (tl (rows_from story_id n is_root next))).
Proof.
  induction n as [c e w options IH] using StoryNodeLLM_induction.
  intros is_root next. cbn [rows_from].
  destruct (negb e && match options with [] => false | _ :: _ => true end);
    [| constructor].
  pose proof (children_rows_targets story_id options
                (Forall_impl _ (fun o H i => H false i) IH) (S next)) as Hc.
  destruct (children_rows _ options (S next)) as [rows ol].
  cbn [fst snd flat_map tl] in *. exact Hc.
Qed.

(** X15: among the rows one call writes, every row but the returned one is
    what exactly one option leads to: the ids the options of all the rows
    lead to are, in some order, the ids of the rows after the first, and
    these are pairwise distinct; no option leads to the returned row. *)
Theorem process_story_node_one_parent db story_id n is_root :
  exists row rest,
    _process_story_node db story_id n is_root
    = (add_rows db (row :: rest), row)
    /\ Permutation (flat_map option_targets (row :: rest))
                   (map StoryNode.id rest)
    /\ NoDup (map StoryNode.id rest)
    /\ ~ In (StoryNode.id row) (flat_map option_targets (row :: rest)).
Proof.
  destruct (process_story_node_rows story_id n db is_root)
    as (row & rest & Erows & Eproc).
  exists row, rest. split; [assumption |].
  pose proof (rows_from_targets story_id n is_root (next_node_id db)) as Hp.
  destruct (rows_from_ids story_id n is_root (next_node_id db)) as [_ Hids].
  rewrite Erows in *. cbn [tl] in Hp.
  cbn [map List.length seq] in Hids. injection Hids as Hid Hrest.
  split; [assumption |].
  split; [rewrite Hrest; apply seq_NoDup |].
  intros Hin. apply (Permutation_in _ Hp) in Hin.
  rewrite Hrest in Hin. apply in_seq in Hin. lia.
Qed.

(** ** [generate_story]: a validated description, end to end *)

(** X16: when the API call returns text that [json.loads] accepts within
    the limits of the interpreter at its call in [generate_story], and the
    validation accepts the decoded value, [generate_story] commits a story
    with the title of the description, and the committed table holds, at
    the id of the first row written, the description as a tree of rows of
    that story, without the options of its ending nodes. *)
Theorem generate_story_stores_description
    R db session_id theme text json_data validated :
  _call_gemini_api R (full_prompt R theme) = Ok (JStr text) ->
  json_loads (story_limits R) text = Ok json_data ->
  model_validate R json_data = Ok validated ->
  exists db' story root rest,
    generate_story R db session_id theme = (db', story)
    /\ Story.title story = LLM.title validated
    /\ story_nodes (durable db') = story_nodes (pending db) ++ root :: rest
    /\ Forall (fun r => StoryNode.story_id r = Story.id story) (root :: rest)
    /\ Stored (story_nodes (durable db')) (StoryNode.id root) true
              (without_options_after_ending (LLM.rootNode validated)).
Proof.
  intros Hcall Hjson Hvalid.
  rewrite generate_story_rows. unfold new_rows, new_story.
  rewrite (story_structure_validated R theme text json_data validated
             Hcall Hjson Hvalid).
  set (sid := fresh_id (map Story.id (stories (pending db)))).
  pose proof (stored_rows sid (LLM.rootNode validated) true (next_node_id db)
                (story_nodes (pending db)) [] (old_ids_below db)) as Hstored.
  pose proof (rows_from_story sid (LLM.rootNode validated) true
                (next_node_id db)) as Hstory.
  destruct (rows_from_head sid (LLM.rootNode validated) true (next_node_id db))
    as (root & rest & E & Hid & _).
  rewrite E in *. rewrite app_nil_r in Hstored.
  exists (commit
            {| pending :=
                 {| stories := stories (pending db)
                               ++ [ {| Story.id := sid;
                                       Story.title := LLM.title validated;
                                       Story.session_id := session_id |} ];
                    story_nodes := story_nodes (pending db) ++ root :: rest |};
               durable := durable db |}),
         {| Story.id := sid; Story.title := LLM.title validated;
            Story.session_id := session_id |}, root, rest.
  split; [reflexivity |].
  cbn [commit durable pending story_nodes Story.title Story.id].
  rewrite Hid. repeat split; assumption.
Qed.

Lemma generate_story_stores_description_witness :
  exists db' story root rest,
    generate_story
      (Example.runtime (Example.answer_with_text Example.two_endings_text))
      Example.used_session (py "s1") (py "fantasy")
    = (db', story)
    /\ Story.title story = LLM.title Example.two_endings_story
    /\ story_nodes (durable db')
       = story_nodes (pending Example.used_session) ++ root :: rest
    /\ Forall (fun r => StoryNode.story_id r = Story.id story) (root :: rest)
    /\ Stored (story_nodes (durable db')) (StoryNode.id root) true
         (without_options_after_ending
            (LLM.rootNode Example.two_endings_story)).
Proof.
  apply (generate_story_stores_description
           (Example.runtime (Example.answer_with_text Example.two_endings_text))
           Example.used_session (py "s1") (py "fantasy")
           Example.two_endings_object Example.two_endings_json
           Example.two_endings_story);
    vm_compute; reflexivity.
Defined.
